(** * async_dns resolver: request de-duplication and the resolution loop

    A shallow embedding of [async_dns/resolver/base.py] (class
    [BaseResolver]) and [async_dns/resolver/query.py] (class [Query]),
    with the properties of the resolver's specification stated over it.

    - [BaseResolver.query] shares one asyncio task among the callers of a
      key.  It is modelled as a transition system over the ledger
      [request_cache], the table of tasks and the event loop's queue of
      scheduled done-callbacks.
    - [Query] is a sequence of coroutines that thread the accumulated
      message, the result future and the collaborators' state.  It is
      modelled in a state-and-exception monad; the two unbounded [while]
      loops take fuel. *)

From Stdlib Require Import ZArith Lia.
From stdpp Require Import base option list gmap strings.

Local Open Scope Z_scope.

(** ** Data shared by both classes *)

(** Python exceptions that the two files raise, catch or can receive from
    their collaborators.  All of them are instances of [Exception]. *)
Inductive exn :=
  | TimeoutError                         (* asyncio.TimeoutError *)
  | AssertionError (msg : string)
  | DNSError (code : Z) (msg : string)
  | InvalidNameServer
  | UnboundLocalError (var : string)
  | IndexError
  | AttributeError
  | InvalidStateError
  | OtherError (cls : string).           (* any other Exception subclass *)

#[global] Instance exn_eq_dec : EqDecision exn.
Proof. solve_decision. Defined.

(** A value stored in a record's [name] or [data] attribute: a text
    (domain name, address) or the data object of an SOA record, of which
    the code reads the attribute [mname]. *)
Inductive value :=
  | Str (s : string)
  | SOA_RData (mname : string).

#[global] Instance value_eq_dec : EqDecision value.
Proof. solve_decision. Defined.

#[global] Instance value_countable : Countable value :=
  inj_countable'
    (λ v, match v with Str s => inl s | SOA_RData m => inr m end)
    (λ x, match x with inl s => Str s | inr m => SOA_RData m end)
    (λ v, match v with Str _ => eq_refl | SOA_RData _ => eq_refl end).

(** Modelled from the spec: the record type codes of [async_dns.core.types],
    which is not part of the sources at hand.  The glossary names A, AAAA,
    CNAME, NS and SOA; the numbers are the ones DNS assigns to them.  The
    theorems only use that the five codes are pairwise different. *)
Module types.
Definition A : Z := 1.
Definition NS : Z := 2.
Definition CNAME : Z := 5.
Definition SOA : Z := 6.
Definition AAAA : Z := 28.
End types.

(** [A_TYPES = types.A, types.AAAA] *)
Definition A_TYPES : list Z := [types.A; types.AAAA].

(** Modelled from the spec: [async_dns.core.Record], section 3 of the
    specification: name, qtype, data and ttl. *)
Module Rec.
Record t := mk { name : value; qtype : Z; data : value; ttl : Z }.

(** [rec.copy(name=domain)] *)
Definition copy_name (rec : t) (domain : value) : t :=
  mk domain (qtype rec) (data rec) (ttl rec).

(** [Record(REQUEST, name, qtype)]: a question entry. *)
Definition question (nm : value) (qt : Z) : t := mk nm qt (Str "") 0.
End Rec.

#[global] Instance Rec_eq_dec : EqDecision Rec.t.
Proof. solve_decision. Defined.

(** Modelled from the spec: [async_dns.core.DNSMessage], section 3 of the
    specification: the four sections, the flags and the result code. *)
Module DNSMessage.
Record t := mk {
  qr : Z;
  qd : list Rec.t;
  an : list Rec.t;
  ns : list Rec.t;
  ar : list Rec.t;
  aa : Z;
  ra : bool;
  r : Z
}.

(** [DNSMessage(qr=...)]: empty sections, flags and result code zero. *)
Definition new (q : Z) : t := mk q [] [] [] [] 0 false 0.

Definition set_qd (v : list Rec.t) (m : t) : t :=
  mk (qr m) v (an m) (ns m) (ar m) (aa m) (ra m) (r m).
Definition set_an (v : list Rec.t) (m : t) : t :=
  mk (qr m) (qd m) v (ns m) (ar m) (aa m) (ra m) (r m).
Definition set_ns (v : list Rec.t) (m : t) : t :=
  mk (qr m) (qd m) (an m) v (ar m) (aa m) (ra m) (r m).
Definition set_ar (v : list Rec.t) (m : t) : t :=
  mk (qr m) (qd m) (an m) (ns m) v (aa m) (ra m) (r m).
Definition set_aa (v : Z) (m : t) : t :=
  mk (qr m) (qd m) (an m) (ns m) (ar m) v (ra m) (r m).
Definition set_r (v : Z) (m : t) : t :=
  mk (qr m) (qd m) (an m) (ns m) (ar m) (aa m) (ra m) v.
End DNSMessage.

#[global] Instance DNSMessage_eq_dec : EqDecision DNSMessage.t.
Proof. solve_decision. Defined.

(** [REQUEST] of [async_dns.core]: the value of the [qr] flag of a query. *)
Definition REQUEST : Z := 0.

(** Modelled from the spec: [async_dns.core.Address], an immutable
    endpoint descriptor (protocol tag, host, port) compared by value. *)
Module Address.
Record t := mk { protocol : string; host : string; port : Z }.
End Address.

#[global] Instance Address_eq_dec : EqDecision Address.t.
Proof. solve_decision. Defined.

#[global] Instance Address_countable : Countable Address.t :=
  inj_countable'
    (λ a, (Address.protocol a, Address.host a, Address.port a))
    (λ x, match x with (p, h, n) => Address.mk p h n end)
    (λ a, match a with Address.mk _ _ _ => eq_refl end).

(** ** [BaseResolver]: one task per key *)

Module BaseResolver.

(** [key = fqdn, qtype, addr] *)
Definition Key : Type := string * Z * Address.t.

(** How the task wrapping [_query] ends: the response it returns, or the
    exception it raises (the timeout of [asyncio.wait_for], an error of
    the transport, ...). *)
Inductive outcome :=
  | Returns (res : DNSMessage.t)
  | Raises (e : exn).

(** The callbacks registered on a task, in registration order:
    the lambda of [add_done_callback], and the resumption of each
    coroutine suspended in [await task]. *)
Inductive Callback :=
  | Pop (k : Key)          (* lambda x: self.request_cache.pop(key, None) *)
  | Wakeup (caller : nat). (* the coroutine [caller] resumes from [await task] *)

#[global] Instance Callback_eq_dec : EqDecision Callback.
Proof. solve_decision. Defined.

(** A task created by [asyncio.ensure_future(self._query(fqdn, qtype, addr))]. *)
Record Task := {
  key : Key;
  state : option outcome;        (* None: pending *)
  callbacks : list Callback
}.

(** The resolver and the part of the event loop it interacts with.
    [tasks] lists every task ever created, its index is the task's
    identity; [ready] is the loop's queue of scheduled callbacks;
    [returned] logs each finished [query] call: who called, which task
    answered it and with what. *)
Record Loop := {
  request_cache : gmap Key nat;
  tasks : list Task;
  ready : list (nat * Callback);
  returned : list (nat * nat * outcome)
}.

(** [BaseResolver.__init__] *)
Definition init : Loop :=
  {| request_cache := ∅; tasks := []; ready := []; returned := [] |}.

(** [await task]: a finished task hands over its outcome at once; on a
    pending task the caller is suspended and its resumption is appended to
    the task's callbacks. *)
Definition await (caller t : nat) (L : Loop) : Loop :=
  match tasks L !! t with
  | None => L
  | Some T =>
      match state T with
      | Some o =>
          {| request_cache := request_cache L; tasks := tasks L;
             ready := ready L;
             returned := returned L ++ [(caller, t, o)] |}
      | None =>
          {| request_cache := request_cache L;
             tasks := <[t := {| key := key T; state := None;
                                callbacks := callbacks T ++ [Wakeup caller] |}]>
                        (tasks L);
             ready := ready L;
             returned := returned L |}
      end
  end.

(** [BaseResolver.query], from its entry to the suspension (or return) at
    [await task]: the task found under the key is awaited; when there is
    none, a task is created for [_query], the callback that pops the key is
    registered on it, and it is entered in [request_cache]. *)
Definition query (caller : nat) (k : Key) (L : Loop) : Loop :=
  match request_cache L !! k with
  | Some t => await caller t L
  | None =>
      let t := length (tasks L) in
      await caller t
        {| request_cache := <[k := t]> (request_cache L);
           tasks := tasks L ++ [{| key := k; state := None;
                                   callbacks := [Pop k] |}];
           ready := ready L;
           returned := returned L |}
  end.

(** The task [t] finishes with outcome [o] ([Future.set_result],
    [set_exception] or cancellation): its callbacks are handed to the loop
    with [call_soon], in registration order, behind whatever is queued. *)
Definition finish (t : nat) (o : outcome) (L : Loop) : Loop :=
  match tasks L !! t with
  | None => L
  | Some T =>
      match state T with
      | Some _ => L
      | None =>
          {| request_cache := request_cache L;
             tasks := <[t := {| key := key T; state := Some o;
                                callbacks := [] |}]> (tasks L);
             ready := ready L ++ (pair t <$> callbacks T);
             returned := returned L |}
      end
  end.

(** The loop runs the callback at the head of its queue. *)
Definition run_callback (L : Loop) : Loop :=
  match ready L with
  | [] => L
  | (t, Pop k) :: rest =>
      {| request_cache := delete k (request_cache L); tasks := tasks L;
         ready := rest; returned := returned L |}
  | (t, Wakeup caller) :: rest =>
      {| request_cache := request_cache L; tasks := tasks L;
         ready := rest;
         returned :=
           match tasks L !! t ≫= state with
           | Some o => returned L ++ [(caller, t, o)]
           | None => returned L
           end |}
  end.

(** What the event loop runs, one at a time and in any order, except that
    scheduled callbacks run in the order of the queue: a step of some
    coroutine that calls [BaseResolver.query], the last step of a task, or
    the callback at the head of the queue. *)
Inductive event :=
  | Query (caller : nat) (k : Key)
  | Finish (t : nat) (o : outcome)
  | RunCallback.

Definition step (L : Loop) (e : event) : Loop :=
  match e with
  | Query caller k => query caller k L
  | Finish t o => finish t o L
  | RunCallback => run_callback L
  end.

Definition run (tr : list event) (L : Loop) : Loop := foldl step L tr.

(** The task [t] is in flight. *)
Definition pending (L : Loop) (t : nat) (k : Key) : Prop :=
  ∃ T, tasks L !! t = Some T ∧ key T = k ∧ state T = None.

(** Number of underlying requests ([_query] invocations) made for [k]. *)
Definition requests (k : Key) (L : Loop) : nat :=
  length (filter (λ k', k' = k) (key <$> tasks L)).

(** Two keys and a response for the examples. *)
Definition example_key : Key :=
  ("example.com"%string, types.A,
   Address.mk "udp" "192.0.2.1" 53).
Definition other_key : Key :=
  ("example.org"%string, types.A,
   Address.mk "udp" "192.0.2.1" 53).
Definition example_response : DNSMessage.t :=
  DNSMessage.mk 1 [Rec.question (Str "example.com") types.A]
    [Rec.mk (Str "example.com") types.A (Str "192.0.2.7") 300] [] [] 0 true 0.

End BaseResolver.

(** ** [Query]: the resolution loop *)

Module Query.

(** [self.future], an asyncio future.  Only its owner cancels it, only
    [Query.query] sets its result or exception. *)
Inductive Future :=
  | Pending
  | Cancelled
  | Result (v : DNSMessage.t * bool)
  | Exception (e : exn).

#[global] Instance Future_eq_dec : EqDecision Future.
Proof. solve_decision. Defined.

(** [future.cancel()]: a future that is done stays as it is. *)
Definition cancel (f : Future) : Future :=
  match f with Pending => Cancelled | _ => f end.

(** [resolver.protocol]: [TCP], or anything else, which selects UDP. *)
Inductive Protocol := TCP | UDP.

(** A value returned or an exception raised by a collaborator. *)
Inductive res (A : Type) :=
  | Val (a : A)
  | Exc (e : exn).
Arguments Val {A} a.
Arguments Exc {A} e.

(** Calls that leave [Query], in the order in which they are made. *)
Inductive event :=
  | CacheQuery (name : value) (qtypes : list Z)    (* cache.query *)
  | ResolverQuery (name : value) (qtype : Z)       (* resolver.query *)
  | GetNameservers (domain : value)                (* resolver.get_nameservers *)
  | CacheMessage (m : option DNSMessage.t)         (* resolver.cache_message *)
  | NewNameServers (nsips : list value)            (* NameServers(nsips) *)
  | Get                                            (* nameservers.get() *)
  | Fail (addr : Address.t)                        (* nameservers.fail(addr) *)
  | Request (p : Protocol) (req : DNSMessage.t) (addr : Address.t)
                                                   (* tcp.request, udp.request *)
  | Debug (fmt : string).                          (* logger.debug *)

(** The calls that go to a nameserver or to the resolver, as opposed to
    look-ups in the cache and logging. *)
Definition leaves_cache (ev : event) : bool :=
  match ev with
  | CacheQuery _ _ | Debug _ => false
  | _ => true
  end.

(** The resolver and the other collaborators of a [Query], none of which
    is part of the two files.  [W] is the state they keep between calls
    (the cache, the failure marks of the nameserver sets, the network),
    [NS] is a reference to a [NameServers] object.  An awaited call also
    tells whether the owner cancelled the future while the coroutine was
    suspended in it. *)
Record Resolver (W NS : Type) := {
  recursive : bool;
  rootdomains : list string;
  protocol : Protocol;
  request_timeout : Z;
  cache_query : value → list Z → W → list Rec.t;
  resolver_query : value → Z → W → res (option DNSMessage.t) * bool * W;
  get_nameservers : value → W → NS * W;
  cache_message : option DNSMessage.t → W → res unit * W;
  tcp_request : DNSMessage.t → Address.t → Z → W → res (list Byte.byte) * bool * W;
  udp_request : DNSMessage.t → Address.t → Z → W → res (list Byte.byte) * bool * W;
  parse : list Byte.byte → res DNSMessage.t;
  NameServers : list value → W → NS * W;
  ns_get : NS → W → option Address.t * W;
  ns_fail : NS → Address.t → W → W
}.
Arguments recursive {W NS}.
Arguments rootdomains {W NS}.
Arguments protocol {W NS}.
Arguments request_timeout {W NS}.
Arguments cache_query {W NS}.
Arguments resolver_query {W NS}.
Arguments get_nameservers {W NS}.
Arguments cache_message {W NS}.
Arguments tcp_request {W NS}.
Arguments udp_request {W NS}.
Arguments parse {W NS}.
Arguments NameServers {W NS}.
Arguments ns_get {W NS}.
Arguments ns_fail {W NS}.

(** [str.endswith] *)
Definition endswith (s suffix : string) : bool :=
  (String.length suffix <=? String.length s)%nat &&
  String.eqb
    (String.substring (String.length s - String.length suffix)
                      (String.length suffix) s)
    suffix.

(** The attributes of a [Query] that change, the calls made so far and the
    state of the collaborators. *)
Record State (W : Type) := {
  _result : DNSMessage.t;
  from_cache : bool;
  future : Future;
  calls : list event;
  world : W
}.
Arguments _result {W}.
Arguments from_cache {W}.
Arguments future {W}.
Arguments calls {W}.
Arguments world {W}.
Arguments Build_State {W}.

(** How a coroutine ends: it returns, it raises, or the fuel of a [while]
    loop is used up. *)
Inductive Outcome (W A : Type) :=
  | Return (a : A) (s : State W)
  | Raise (e : exn) (s : State W)
  | OutOfFuel.
Arguments Return {W A}.
Arguments Raise {W A}.
Arguments OutOfFuel {W A}.

Section Model.
Context {W NS : Type}.
Context (resolver : Resolver W NS) (fqdn : string) (qtype : Z).

Definition M (A : Type) : Type := State W → Outcome W A.

#[global] Instance M_ret : MRet M := λ A a s, Return a s.
#[global] Instance M_bind : MBind M := λ A B f m s,
  match m s with
  | Return a s' => f a s'
  | Raise e s' => Raise e s'
  | OutOfFuel => OutOfFuel
  end.

Definition raise {A} (e : exn) : M A := λ s, Raise e s.
Definition out_of_fuel {A} : M A := λ _, OutOfFuel.

(** [try: body / except ...: handler / else: orelse] *)
Definition try_except_else {A B}
    (body : M A) (handler : exn → M B) (orelse : A → M B) : M B := λ s,
  match body s with
  | Return a s' => orelse a s'
  | Raise e s' => handler e s'
  | OutOfFuel => OutOfFuel
  end.

Definition get_self : M (State W) := λ s, Return s s.

Definition with_future (f : Future) (s : State W) : State W :=
  Build_State (_result s) (from_cache s) f (calls s) (world s).

Definition with_result (m : DNSMessage.t) (s : State W) : State W :=
  Build_State m (from_cache s) (future s) (calls s) (world s).

Definition with_from_cache (b : bool) (s : State W) : State W :=
  Build_State (_result s) b (future s) (calls s) (world s).

Definition set_result_message (f : DNSMessage.t → DNSMessage.t) : M unit :=
  λ s, Return tt (with_result (f (_result s)) s).

Definition set_from_cache (b : bool) : M unit :=
  λ s, Return tt (with_from_cache b s).

(** The state after the call [ev], which leaves the collaborators in
    state [w]. *)
Definition record_call (ev : event) (w : W) (s : State W) : State W :=
  Build_State (_result s) (from_cache s) (future s) (calls s ++ [ev]) w.

Definition logged (fmt : string) (s : State W) : State W :=
  record_call (Debug fmt) (world s) s.

(** [logger.debug(fmt, ...)] *)
Definition debug (fmt : string) : M unit := λ s, Return tt (logged fmt s).

(** A call of a collaborator that does not suspend. *)
Definition call {A} (ev : event) (op : W → A * W) : M A := λ s,
  let '(a, w) := op (world s) in Return a (record_call ev w s).

Definition lift {A} (x : res A) : M A := λ s,
  match x with Val a => Return a s | Exc e => Raise e s end.

(** [await op]: the coroutine is suspended; meanwhile the owner of the
    future may cancel it. *)
Definition await {A} (ev : event) (op : W → res A * bool * W) : M A := λ s,
  let '(x, cancelled_meanwhile, w) := op (world s) in
  let s' := Build_State (_result s) (from_cache s)
              (if cancelled_meanwhile then cancel (future s) else future s)
              (calls s ++ [ev]) w in
  match x with Val a => Return a s' | Exc e => Raise e s' end.

(** The state in which a coroutine ends, if it ends. *)
Definition final_state {A} (o : Outcome W A) : option (State W) :=
  match o with
  | Return _ s | Raise _ s => Some s
  | OutOfFuel => None
  end.

(** [m] keeps the property [P] of the state. *)
Definition preserves {A} (P : State W → Prop) (m : M A) : Prop :=
  ∀ s s', P s → final_state (m s) = Some s' → P s'.

(** The future has neither a result nor an exception. *)
Definition unsettled (s : State W) : Prop :=
  future s = Pending ∨ future s = Cancelled.

(** [self.future.cancelled()] *)
Definition cancelled : M bool := λ s,
  Return (match future s with Cancelled => true | _ => false end) s.

(** [self.future.set_exception(error)] *)
Definition set_exception (error : exn) : M unit := λ s,
  match future s with
  | Pending => Return tt (with_future (Exception error) s)
  | _ => Raise InvalidStateError s
  end.

(** [self.future.set_result(v)] *)
Definition set_result (v : DNSMessage.t * bool) : M unit := λ s,
  match future s with
  | Pending => Return tt (with_future (Result v) s)
  | _ => Raise InvalidStateError s
  end.

(** [cache.query(name, qtype)]; [qtype] is one code or a tuple of codes. *)
Definition cache_query_ (name : value) (qtypes : list Z) : M (list Rec.t) :=
  call (CacheQuery name qtypes)
       (λ w, (cache_query resolver name qtypes w, w)).

(** *** [query_cache] *)

(** Lines 57-63: the cached CNAME targets are resolved one by one
    through [resolver.query]. *)
Fixpoint query_cache_targets (cname : list Rec.t) : M unit :=
  match cname with
  | [] => mret tt
  | rec :: rest =>
      inter_res ← await (ResolverQuery (Rec.data rec) qtype)
                        (resolver_query resolver (Rec.data rec) qtype);
      match inter_res with
      | None => mret tt
      | Some inter_res =>
          if 0 <? DNSMessage.r inter_res then mret tt
          else
            set_result_message (λ result,
              DNSMessage.set_ar (DNSMessage.ar inter_res)
                (DNSMessage.set_ns (DNSMessage.ns inter_res)
                  (DNSMessage.set_an
                    (DNSMessage.an result ++ DNSMessage.an inter_res)
                    result)))
      end;;
      query_cache_targets rest
  end.

(** Lines 67-78: the loop over the cached records of the queried type. *)
Fixpoint query_cache_scan (domain : value) (recs : list Rec.t)
    (cache_hit : bool) : M bool :=
  match recs with
  | [] => mret cache_hit
  | rec :: rest =>
      cache_hit ←
        (if Rec.qtype rec =? types.NS then
           inter_res ← cache_query_ (Rec.data rec) A_TYPES;
           match inter_res with
           | [] => mret cache_hit
           | _ :: _ =>
               set_result_message (λ result,
                 DNSMessage.set_ns (DNSMessage.ns result ++ [rec])
                   (DNSMessage.set_ar (DNSMessage.ar result ++ inter_res)
                      result));;
               mret (if Rec.qtype rec =? qtype then true else cache_hit)
           end
         else
           set_result_message (λ result,
             DNSMessage.set_an
               (DNSMessage.an result ++ [Rec.copy_name rec domain]) result);;
           mret (if (qtype =? types.CNAME)
                    || negb (Rec.qtype rec =? types.CNAME)
                 then true else cache_hit));
      query_cache_scan domain rest cache_hit
  end.

(** [any(domain.endswith(root) for root in self.resolver.rootdomains)];
    a [domain] that is no text has no [endswith]. *)
Definition under_rootdomains (domain : value) : M bool :=
  match rootdomains resolver with
  | [] => mret false
  | roots =>
      match domain with
      | Str d => mret (existsb (endswith d) roots)
      | SOA_RData _ => raise AttributeError
      end
  end.

Definition query_cache (domain : value) : M bool :=
  cname ← cache_query_ domain [types.CNAME];
  match cname with
  | _ :: _ =>
      set_result_message (λ result,
        DNSMessage.set_an
          (DNSMessage.an result ++ ((λ rec, Rec.copy_name rec domain) <$> cname))
          result);;
      (if forallb (λ rec, Rec.ttl rec <? 0) cname
       then set_result_message (DNSMessage.set_aa 1) else mret tt);;
      if qtype =? types.CNAME then mret true
      else query_cache_targets cname;; mret true
  | [] =>
      recs ← cache_query_ domain [qtype];
      cache_hit ← query_cache_scan domain recs false;
      under ← under_rootdomains domain;
      if under : bool then
        cache_hit ←
          (if negb cache_hit
           then set_result_message (DNSMessage.set_r 3);; mret true
           else mret cache_hit);
        set_result_message (DNSMessage.set_aa 1);;
        mret cache_hit
      else mret cache_hit
  end.

(** *** [request_once], [request_remote], [query_remote_once] *)

Definition request_once (req : DNSMessage.t) (addr : Address.t)
    (protocol_arg : option Protocol) : M (list Byte.byte) :=
  let protocol :=
    match protocol_arg with None => protocol resolver | Some p => p end in
  match protocol with
  | TCP => await (Request TCP req addr)
                 (tcp_request resolver req addr (request_timeout resolver))
  | UDP => await (Request UDP req addr)
                 (udp_request resolver req addr (request_timeout resolver))
  end.

(** [l[0]] *)
Definition first {A} (l : list A) : M A :=
  match l with [] => raise IndexError | x :: _ => mret x end.

(** Lines 151-156: the body of the [try]. *)
Definition request_remote_try (req : DNSMessage.t) (addr : Address.t)
    : M DNSMessage.t :=
  data ← request_once req addr None;
  inter_res ← lift (parse resolver data);
  debug "[request_remote] %s";;
  q ← first (DNSMessage.qd inter_res);
  q' ← first (DNSMessage.qd req);
  if bool_decide (Rec.name q ≠ Rec.name q')
  then raise (DNSError (-1) "Question section mismatch")
  else if DNSMessage.r inter_res =? 2
  then raise (AssertionError "Remote server fail")
  else mret inter_res.

(** The state after the first handler, lines 158-159, has run on [s]. *)
Definition marked_failed (nameservers : NS) (addr : Address.t)
    (s : State W) : State W :=
  let s := logged "[request_remote][server_error] %s" s in
  record_call (Fail addr) (ns_fail resolver nameservers addr (world s)) s.

(** The [while] loop of [request_remote].  [e] is the local variable of
    that name: [except ... as e] binds it for the duration of the first
    handler and unbinds it at the handler's end, so it is unbound
    whenever a round starts; the second handler reads it. *)
Fixpoint request_remote (fuel : nat) (nameservers : NS)
    (req : DNSMessage.t) (e : option exn) : M (option DNSMessage.t) :=
  match fuel with
  | O => out_of_fuel
  | S fuel =>
      c ← cancelled;
      if c : bool then mret None
      else
        addr ← call Get (ns_get resolver nameservers);
        match addr with
        | None => raise InvalidNameServer
        | Some addr =>
            try_except_else (request_remote_try req addr)
              (λ exc,
                 match exc with
                 | TimeoutError | AssertionError _ =>
                     debug "[request_remote][server_error] %s";;
                     call (Fail addr)
                          (λ w, (tt, ns_fail resolver nameservers addr w));;
                     request_remote fuel nameservers req None
                 | DNSError _ _ =>
                     match e with
                     | None => raise (UnboundLocalError "e")
                     | Some _ =>
                         debug "[request_remote][dns_error] %s";;
                         request_remote fuel nameservers req e
                     end
                 | _ => raise exc
                 end)
              (λ inter_res, mret (Some inter_res))
        end
  end.

Definition query_remote_once (fuel : nat) (domain : value)
    (nameservers : option NS) : M (option DNSMessage.t) :=
  let req := DNSMessage.new REQUEST in
  nameservers ←
    match nameservers with
    | None => call (GetNameservers domain) (get_nameservers resolver domain)
    | Some nameservers => mret nameservers
    end;
  let req := DNSMessage.set_qd [Rec.question domain qtype] req in
  debug "[query_remote][%s][%s] %s";;
  inter_res ← request_remote fuel nameservers req None;
  x ← call (CacheMessage inter_res) (cache_message resolver inter_res);
  lift x;;
  mret inter_res.

(** *** [query_remote] *)

(** Lines 98-103: the loop over the answer section.  The accumulator is
    [(result, cname, has_result)]. *)
Definition answer_step (acc : DNSMessage.t * list value * bool)
    (rec : Rec.t) : DNSMessage.t * list value * bool :=
  let '(result, cname, has_result) := acc in
  let result := DNSMessage.set_an (DNSMessage.an result ++ [rec]) result in
  let cname :=
    if Rec.qtype rec =? types.CNAME then cname ++ [Rec.data rec] else cname in
  let has_result :=
    if (qtype =? types.CNAME) || negb (Rec.qtype rec =? types.CNAME)
    then true else has_result in
  (result, cname, has_result).

(** Lines 104-110: the loop over the authority section.  The accumulator
    is [(result, has_result, has_ns)]. *)
Definition authority_step (acc : DNSMessage.t * bool * bool)
    (rec : Rec.t) : DNSMessage.t * bool * bool :=
  let '(result, has_result, has_ns) := acc in
  let result :=
    if negb (recursive resolver)
    then DNSMessage.set_ns (DNSMessage.ns result ++ [rec]) result
    else result in
  if (Rec.qtype rec =? types.SOA) || (qtype =? types.NS)
  then (result, true, has_ns)
  else (result, has_result, true).

(** What the two loops compute, said of the response as a whole: an
    answer record that makes [has_result] true, an authority record that
    does, and the accumulated message after lines 98-112. *)
Definition answers_query (rec : Rec.t) : bool :=
  (qtype =? types.CNAME) || negb (Rec.qtype rec =? types.CNAME).

Definition settles_query (rec : Rec.t) : bool :=
  (Rec.qtype rec =? types.SOA) || (qtype =? types.NS).

Definition cname_targets (an : list Rec.t) : list value :=
  Rec.data <$> filter (λ rec, Rec.qtype rec = types.CNAME) an.

Definition merged (result inter_res : DNSMessage.t) : DNSMessage.t :=
  let result :=
    DNSMessage.set_an (DNSMessage.an result ++ DNSMessage.an inter_res)
                      result in
  if negb (recursive resolver) then
    DNSMessage.set_ar (DNSMessage.ar result ++ DNSMessage.ar inter_res)
      (DNSMessage.set_ns (DNSMessage.ns result ++ DNSMessage.ns inter_res)
         result)
  else result.

(** Lines 123-125: [nsip_map[rec.name, rec.qtype] = rec.data] *)
Definition nsip_map_of (ar : list Rec.t) : gmap (value * Z) value :=
  foldl (λ nsip_map rec,
           <[(Rec.name rec, Rec.qtype rec) := Rec.data rec]> nsip_map)
        ∅ ar.

(** Line 128: [rec.data.mname if rec.qtype == types.SOA else rec.data];
    a text has no attribute [mname]. *)
Definition ns_host (rec : Rec.t) : res value :=
  if Rec.qtype rec =? types.SOA then
    match Rec.data rec with
    | SOA_RData mname => Val (Str mname)
    | Str _ => Exc AttributeError
    end
  else Val (Rec.data rec).

(** Lines 126-131: the loop that collects [nsips]. *)
Fixpoint nsips_of (nsip_map : gmap (value * Z) value) (ns : list Rec.t)
    (nsips : list value) : res (list value) :=
  match ns with
  | [] => Val nsips
  | rec :: rest =>
      match ns_host rec with
      | Exc e => Exc e
      | Val host =>
          match nsip_map !! (host, types.A) with
          | Some ip => nsips_of nsip_map rest (nsips ++ [ip])
          | None => nsips_of nsip_map rest nsips
          end
      end
  end.

(** Returns [None] for Python's [None], else the pair
    [(domain, nameservers)] for the next round. *)
Definition query_remote (fuel : nat) (domain : value)
    (nameservers : option NS) : M (option (value * option NS)) :=
  inter_res ← query_remote_once fuel domain nameservers;
  match inter_res with
  | None => raise AttributeError      (* [inter_res.an] of [None] *)
  | Some inter_res =>
      s ← get_self;
      let '(result, cname, has_result) :=
        foldl answer_step (_result s, [], false) (DNSMessage.an inter_res) in
      let '(result, has_result, has_ns) :=
        foldl authority_step (result, has_result, false)
              (DNSMessage.ns inter_res) in
      let result :=
        if negb (recursive resolver)
        then DNSMessage.set_ar
               (DNSMessage.ar result ++ DNSMessage.ar inter_res) result
        else result in
      set_result_message (λ _, result);;
      if has_result : bool then mret None
      else
        match cname with
        | target :: _ => mret (Some (target, None))
        | [] =>
            if negb (recursive resolver) then
              set_result_message (DNSMessage.set_r (DNSMessage.r inter_res));;
              mret None
            else if negb has_ns then
              set_result_message (DNSMessage.set_r 2);;
              mret None
            else
              let nsip_map := nsip_map_of (DNSMessage.ar inter_res) in
              nsips ← lift (nsips_of nsip_map (DNSMessage.ns inter_res) []);
              nameservers ← call (NewNameServers nsips)
                                 (NameServers resolver nsips);
              mret (Some (domain, Some nameservers))
        end
  end.

(** *** [query] *)

(** The [while True] loop of [query], lines 27-35. *)
Fixpoint query_loop (fuel : nat) (domain : value)
    (nameservers : option NS) : M unit :=
  match fuel with
  | O => out_of_fuel
  | S fuel =>
      c ← cancelled;
      break ←
        (if negb c then
           hit ← query_cache domain;
           set_from_cache hit;;
           debug "[query_cache][%s][%s] %s";;
           mret hit
         else mret false);
      if break : bool then mret tt
      else
        c ← cancelled;
        if negb c then
          remote_res ← query_remote fuel domain nameservers;
          match remote_res with
          | None => mret tt
          | Some (domain, nameservers) => query_loop fuel domain nameservers
          end
        else query_loop fuel domain nameservers
  end.

(** Lines 38-42: the future is settled unless it was cancelled. *)
Definition settle (error : option exn) : M unit :=
  c ← cancelled;
  if negb c then
    match error with
    | Some error => set_exception error
    | None => s ← get_self; set_result (_result s, from_cache s)
    end
  else mret tt.

Definition query (fuel : nat) : M unit :=
  try_except_else (query_loop fuel (Str fqdn) None)
    (λ e, settle (Some e))
    (λ _, settle None).

(** *** [__init__] *)

(** Lines 11-20: the attributes of a new [Query].  [default_qr] is the
    value that the constructor of [DNSMessage] gives to [qr] when it is not
    passed, which the sources at hand do not show. *)
Definition init (default_qr : Z) (w : W) : State W :=
  {| _result :=
       DNSMessage.mk default_qr [Rec.question (Str fqdn) qtype] [] [] [] 0
                     (recursive resolver) 0;
     from_cache := false;
     future := Pending;
     calls := [];
     world := w |}.

(** *** What the loop over the cached records computes *)

(** Line 69: the cached address records of the host of an NS record. *)
Definition glue_of (w : W) (rec : Rec.t) : list Rec.t :=
  cache_query resolver (Rec.data rec) A_TYPES w.

(** A cached record that makes [cache_hit] true, lines 68-78. *)
Definition hits (w : W) (rec : Rec.t) : bool :=
  if Rec.qtype rec =? types.NS then
    match glue_of w rec with
    | [] => false
    | _ :: _ => Rec.qtype rec =? qtype
    end
  else (qtype =? types.CNAME) || negb (Rec.qtype rec =? types.CNAME).

(** The NS records among [recs] that have glue in the cache. *)
Definition with_glue (w : W) (recs : list Rec.t) : list Rec.t :=
  filter (λ rec, Rec.qtype rec = types.NS ∧ glue_of w rec ≠ []) recs.

(** The accumulated message after the loop has gone through [recs]. *)
Definition scanned (w : W) (domain : value) (recs : list Rec.t)
    (result : DNSMessage.t) : DNSMessage.t :=
  DNSMessage.mk (DNSMessage.qr result) (DNSMessage.qd result)
    (DNSMessage.an result ++
       ((λ rec, Rec.copy_name rec domain) <$>
          filter (λ rec, Rec.qtype rec ≠ types.NS) recs))
    (DNSMessage.ns result ++ with_glue w recs)
    (DNSMessage.ar result ++ mjoin (glue_of w <$> with_glue w recs))
    (DNSMessage.aa result) (DNSMessage.ra result) (DNSMessage.r result).

(** The look-ups that the loop makes in the cache. *)
Definition scan_calls (recs : list Rec.t) : list event :=
  (λ rec, CacheQuery (Rec.data rec) A_TYPES) <$>
    filter (λ rec, Rec.qtype rec = types.NS) recs.

(** What lines 154-156 have checked of a response to [req]. *)
Definition validated (req inter_res : DNSMessage.t) : Prop :=
  ∃ q q', head (DNSMessage.qd inter_res) = Some q ∧
          head (DNSMessage.qd req) = Some q' ∧
          Rec.name q = Rec.name q' ∧ DNSMessage.r inter_res ≠ 2.

(** The request that [query_remote_once] builds for [domain]. *)
Definition request_for (domain : value) : DNSMessage.t :=
  DNSMessage.set_qd [Rec.question domain qtype] (DNSMessage.new REQUEST).

(** The parts of the accumulated message that [query] is not meant to
    touch: the question, and the flags [qr] and [ra]. *)
Definition heading (m : DNSMessage.t) : Z * list Rec.t * bool :=
  (DNSMessage.qr m, DNSMessage.qd m, DNSMessage.ra m).
End Model.
End Query.

(** ** [BaseResolver._request]: the choice of the transport *)

Module BaseResolverRequest.
Import Query.

Section Request.
(** [W] is the state of the network and [Data] what a transport returns;
    the three transports are [tcp.request], [udp.request] and
    [doh.request] of the package [request], which is not part of the
    sources at hand. *)
Context {W Data Timeout : Type}.

Definition Transport : Type :=
  DNSMessage.t → Address.t → Timeout → W → res Data * W.

Context (tcp_request udp_request doh_request : Transport).

(** [BaseResolver.protocols] *)
Definition protocols : gmap string Transport :=
  <["tcp"%string := tcp_request]>
    (<["tcps"%string := tcp_request]>
       (<["udp"%string := udp_request]>
          (<["https"%string := doh_request]> ∅))).

(** [BaseResolver._request]; a protocol that is no key of [protocols]
    raises [KeyError]. *)
Definition _request (timeout : Timeout) (req : DNSMessage.t)
    (addr : Address.t) (w : W) : res Data * W :=
  match protocols !! Address.protocol addr with
  | None => (Exc (OtherError "KeyError"), w)
  | Some request => request req addr timeout w
  end.
End Request.
End BaseResolverRequest.

(** ** A resolver to run the model on

    A small instance of the collaborators, for the examples: the cache is a
    list of records, a nameserver set is the list of its addresses with the
    failed ones noted apart, and the network answers from a script. *)

Module Example.
Import Query.

Record World := {
  cachedb : list Rec.t;
  failed : list Address.t;
  network : list (res (list Byte.byte) * bool);
  upstream : list (res (option DNSMessage.t) * bool)
}.

Definition server1 : Address.t :=
  Address.mk "udp" "192.0.2.1" 53.
Definition server2 : Address.t :=
  Address.mk "udp" "192.0.2.2" 53.

(** The request message that [query_remote_once] builds. *)
Definition request_for (domain : string) (qtype : Z) : DNSMessage.t :=
  DNSMessage.set_qd [Rec.question (Str domain) qtype] (DNSMessage.new REQUEST).

(** Responses to a query for the A records of "www.example.com". *)
Definition answer : DNSMessage.t :=
  DNSMessage.mk 1 [Rec.question (Str "www.example.com") types.A]
    [Rec.mk (Str "www.example.com") types.A (Str "192.0.2.7") 300] [] [] 0 true 0.
Definition server_failure : DNSMessage.t :=
  DNSMessage.mk 1 [Rec.question (Str "www.example.com") types.A] [] [] [] 0 true 2.
Definition other_question : DNSMessage.t :=
  DNSMessage.mk 1 [Rec.question (Str "www.example.org") types.A]
    [Rec.mk (Str "www.example.org") types.A (Str "192.0.2.9") 300] [] [] 0 true 0.
Definition alias : DNSMessage.t :=
  DNSMessage.mk 1 [Rec.question (Str "www.example.com") types.A]
    [Rec.mk (Str "www.example.com") types.CNAME (Str "host.example.net") 300;
     Rec.mk (Str "host.example.net") types.CNAME (Str "host.example.org") 300]
    [] [] 0 true 0.
Definition referral : DNSMessage.t :=
  DNSMessage.mk 1 [Rec.question (Str "www.example.com") types.A] []
    [Rec.mk (Str "example.com") types.NS (Str "ns1.example.com") 300;
     Rec.mk (Str "example.com") types.NS (Str "ns2.example.com") 300]
    [Rec.mk (Str "ns1.example.com") types.AAAA (Str "2001:db8::1") 300;
     Rec.mk (Str "ns2.example.com") types.A (Str "192.0.2.2") 300;
     Rec.mk (Str "ns2.example.com") types.AAAA (Str "2001:db8::2") 300]
    0 true 0.

(** The wire format is not modelled: the first byte of a datagram selects
    the message it decodes to, anything else is malformed. *)
Definition example_parse (data : list Byte.byte) : res DNSMessage.t :=
  match data with
  | Byte.x01 :: _ => Val answer
  | Byte.x02 :: _ => Val server_failure
  | Byte.x03 :: _ => Val other_question
  | Byte.x04 :: _ => Val alias
  | Byte.x05 :: _ => Val referral
  | _ => Exc (DNSError 1 "Format error")
  end.

Definition example_request (req : DNSMessage.t) (addr : Address.t) (timeout : Z)
    (w : World) : res (list Byte.byte) * bool * World :=
  match network w with
  | [] => (Exc TimeoutError, false, w)
  | x :: rest =>
      (x.1, x.2, {| cachedb := cachedb w; failed := failed w;
                    network := rest; upstream := upstream w |})
  end.

Definition example_resolver_query (name : value) (qtype : Z) (w : World)
    : res (option DNSMessage.t) * bool * World :=
  match upstream w with
  | [] => (Val None, false, w)
  | x :: rest =>
      (x.1, x.2, {| cachedb := cachedb w; failed := failed w;
                    network := network w; upstream := rest |})
  end.

Definition example_cache_query (name : value) (qtypes : list Z) (w : World)
    : list Rec.t :=
  filter (λ rec, Rec.name rec = name ∧ Rec.qtype rec ∈ qtypes) (cachedb w).

Definition example_cache_message (m : option DNSMessage.t) (w : World)
    : res unit * World :=
  match m with
  | None => (Exc AttributeError, w)
  | Some m =>
      (Val tt, {| cachedb := cachedb w ++ DNSMessage.an m ++ DNSMessage.ns m
                               ++ DNSMessage.ar m;
                  failed := failed w; network := network w;
                  upstream := upstream w |})
  end.

Definition address_of (ip : value) : Address.t :=
  Address.mk "udp" (match ip with Str s => s | SOA_RData s => s end) 53.

Definition example_ns_get (nameservers : list Address.t) (w : World)
    : option Address.t * World :=
  (List.find (λ a, bool_decide (a ∉ failed w)) nameservers, w).

Definition example_ns_fail (nameservers : list Address.t) (addr : Address.t)
    (w : World) : World :=
  {| cachedb := cachedb w; failed := addr :: failed w;
     network := network w; upstream := upstream w |}.

Definition example_resolver (recursive : bool) (rootdomains : list string)
    : Resolver World (list Address.t) :=
  {| Query.recursive := recursive;
     Query.rootdomains := rootdomains;
     Query.protocol := UDP;
     request_timeout := 3;
     cache_query := example_cache_query;
     resolver_query := example_resolver_query;
     get_nameservers := λ _ w, ([server1; server2], w);
     cache_message := example_cache_message;
     tcp_request := example_request;
     udp_request := example_request;
     parse := example_parse;
     NameServers := λ nsips w, (address_of <$> nsips, w);
     ns_get := example_ns_get;
     ns_fail := example_ns_fail |}.

(** A query that has just been created by [Query.__init__]. *)
Definition start (recursive : bool) (fqdn : string) (qtype : Z) (w : World)
    : State World :=
  {| _result := DNSMessage.mk 0 [Rec.question (Str fqdn) qtype] [] [] [] 0
                              recursive 0;
     from_cache := false; future := Pending; calls := []; world := w |}.

Definition quiet : World :=
  {| cachedb := []; failed := []; network := []; upstream := [] |}.

Definition on_network (script : list (res (list Byte.byte) * bool)) : World :=
  {| cachedb := []; failed := []; network := script; upstream := [] |}.

Definition with_cache (db : list Rec.t) : World :=
  {| cachedb := db; failed := []; network := []; upstream := [] |}.
End Example.

(** More data for the examples: a response without records and a resolver
    whose transport can deliver it, cached records, and a world in which
    every name server has failed. *)
Module MoreExamples.
Import Query Example.

Definition no_data : DNSMessage.t :=
  DNSMessage.mk 1 [Rec.question (Str "www.example.com") types.A] [] [] [] 0
    true 0.

Definition parse_more (data : list Byte.byte) : res DNSMessage.t :=
  match data with
  | Byte.x06 :: _ => Val no_data
  | _ => example_parse data
  end.

Definition resolver_more (recursive : bool) (rootdomains : list string)
    : Resolver World (list Address.t) :=
  {| Query.recursive := recursive;
     Query.rootdomains := rootdomains;
     Query.protocol := UDP;
     request_timeout := 3;
     cache_query := example_cache_query;
     resolver_query := example_resolver_query;
     get_nameservers := λ _ w, ([server1; server2], w);
     cache_message := example_cache_message;
     tcp_request := example_request;
     udp_request := example_request;
     parse := parse_more;
     NameServers := λ nsips w, (address_of <$> nsips, w);
     ns_get := example_ns_get;
     ns_fail := example_ns_fail |}.

Definition cached_address : Rec.t :=
  Rec.mk (Str "www.example.com") types.A (Str "192.0.2.7") 300.
Definition cached_alias : Rec.t :=
  Rec.mk (Str "www.example.com") types.CNAME (Str "host.example.net") 300.

Definition all_failed : World :=
  {| cachedb := []; failed := [server1; server2]; network := [];
     upstream := [] |}.
End MoreExamples.

Module BaseResolverInv.
Import BaseResolver.

(** The tasks whose [Pop] callback is scheduled and has not run yet. *)
Definition pops (q : list (nat * Callback)) : list nat :=
  omap (λ x, match x.2 with Pop _ => Some x.1 | Wakeup _ => None end) q.

(** What holds of the ledger, the tasks and the queue between any two
    steps of the program. *)
Record Inv (L : Loop) : Prop := {
  inv_cache : ∀ k t, request_cache L !! k = Some t →
    ∃ T, tasks L !! t = Some T ∧ key T = k ∧
         (state T = None ∨ (t, Pop k) ∈ ready L);
  inv_pending : ∀ t T, tasks L !! t = Some T → state T = None →
    request_cache L !! key T = Some t ∧
    ∃ ws, callbacks T = Pop (key T) :: (Wakeup <$> ws);
  inv_ready : ∀ t cb, (t, cb) ∈ ready L →
    ∃ T o, tasks L !! t = Some T ∧ state T = Some o;
  inv_pop : ∀ t k, (t, Pop k) ∈ ready L → request_cache L !! k = Some t;
  inv_pops_nodup : NoDup (pops (ready L));
  inv_order : ∀ i t c k,
    ready L !! i = Some (t, Wakeup c) →
    request_cache L !! k = Some t →
    ∃ j, (j < i)%nat ∧ ready L !! j = Some (t, Pop k);
  inv_returned : ∀ c t o, (c, t, o) ∈ returned L →
    ∃ T, tasks L !! t = Some T ∧ state T = Some o
}.
(** The tasks below [n] have finished. *)
Definition settled_below (n : nat) (L : Loop) : Prop :=
  ∀ t T, (t < n)%nat → tasks L !! t = Some T → state T ≠ None.

(** Every task up to [n] finishes with [o], oldest first. *)
Definition finish_all (o : outcome) (n : nat) : list event :=
  (λ t, Finish t o) <$> seq 0 n.
End BaseResolverInv.

Module BaseResolverFacts.
Import BaseResolver BaseResolverInv.

Lemma init_inv : Inv init.
Proof.
  split; simpl; intros.
  - by rewrite lookup_empty in H.
  - by rewrite lookup_nil in H.
  - by apply elem_of_nil in H.
  - by apply elem_of_nil in H.
  - constructor.
  - by rewrite lookup_nil in H.
  - by apply elem_of_nil in H.
Qed.

Lemma pops_app q1 q2 : pops (q1 ++ q2) = pops q1 ++ pops q2.
Proof. apply omap_app. Qed.

Lemma elem_of_pops t q : t ∈ pops q ↔ ∃ k, (t, Pop k) ∈ q.
Proof.
  unfold pops. rewrite list_elem_of_omap. split.
  - intros [[t' cb] [Hin Heq]]. destruct cb; simplify_eq/=. eauto.
  - intros [k Hin]. exists (t, Pop k). done.
Qed.

Lemma pops_callbacks t k ws :
  pops (pair t <$> Pop k :: (Wakeup <$> ws)) = [t].
Proof.
  simpl. unfold pops. simpl. f_equal.
  induction ws as [|w ws IH]; simpl; done.
Qed.

(** Suspending a caller on a task keeps the invariant. *)
Lemma await_inv c t L : Inv L → Inv (await c t L).
Proof.
  intros HI. unfold await.
  destruct (tasks L !! t) as [T|] eqn:Ht; [|done].
  destruct (state T) as [o|] eqn:Hs.
  - destruct HI. split; simpl; try done.
    intros c' t' o' [Hin|Hin%list_elem_of_singleton]%elem_of_app; [eauto|].
    simplify_eq. eauto.
  - pose proof (lookup_lt_Some _ _ _ Ht) as Hlt.
    destruct HI as [I1 I2 I3 I4 I5 I6 I7]. split; simpl; try done.
    + intros k t' Hk. destruct (I1 k t' Hk) as (T' & HT' & Hkey & Hst).
      destruct (decide (t' = t)) as [->|Hne].
      * eexists. rewrite list_lookup_insert_eq by lia. split; [done|].
        simplify_eq/=. split; [done|by left].
      * exists T'. by rewrite list_lookup_insert_ne.
    + intros t' T' HT' Hst.
      destruct (decide (t' = t)) as [->|Hne].
      * rewrite list_lookup_insert_eq in HT' by lia. simplify_eq/=.
        destruct (I2 t T Ht Hs) as [Hc [ws Hws]]. split; [done|].
        exists (ws ++ [c]). by rewrite Hws, fmap_app.
      * rewrite list_lookup_insert_ne in HT' by lia. eauto.
    + intros t' cb Hin. destruct (I3 t' cb Hin) as (T' & o & HT' & Hst).
      destruct (decide (t' = t)) as [->|Hne]; [congruence|].
      exists T', o. by rewrite list_lookup_insert_ne.
    + intros c' t' o Hin. destruct (I7 c' t' o Hin) as (T' & HT' & Hst).
      destruct (decide (t' = t)) as [->|Hne]; [congruence|].
      exists T'. by rewrite list_lookup_insert_ne.
Qed.

(** Creating and registering the task of a key that has no entry. *)
Lemma register_inv k L :
  Inv L → request_cache L !! k = None →
  Inv {| request_cache := <[k := length (tasks L)]> (request_cache L);
         tasks := tasks L ++ [{| key := k; state := None;
                                 callbacks := [Pop k] |}];
         ready := ready L;
         returned := returned L |}.
Proof.
  intros [I1 I2 I3 I4 I5 I6 I7] Hk. split; simpl; try done.
  - intros k' t' Hk'. destruct (decide (k' = k)) as [->|Hne].
    + rewrite lookup_insert_eq in Hk'. simplify_eq.
      eexists. split; [apply list_lookup_middle; done|]. simpl. auto.
    + rewrite lookup_insert_ne in Hk' by done.
      destruct (I1 k' t' Hk') as (T' & HT' & Hkey & Hst).
      exists T'. split; [|done]. by apply lookup_app_l_Some.
  - intros t' T' HT' Hst.
    apply lookup_app_Some in HT' as [HT'|[Hge HT']].
    + destruct (I2 t' T' HT' Hst) as [Hc Hws]. split; [|done].
      rewrite lookup_insert_ne; [done|]. congruence.
    + apply list_lookup_singleton_Some in HT' as [Hz <-]. simpl.
      replace t' with (length (tasks L)) by lia.
      rewrite lookup_insert_eq. split; [done|]. by exists [].
  - intros t' cb Hin. destruct (I3 t' cb Hin) as (T' & o & HT' & Hst).
    exists T', o. split; [|done]. by apply lookup_app_l_Some.
  - intros t' k' Hin. pose proof (I4 t' k' Hin) as Hk'.
    rewrite lookup_insert_ne; [done|]. congruence.
  - intros i t' c k' Hi Hk'. destruct (decide (k' = k)) as [->|Hne].
    + rewrite lookup_insert_eq in Hk'. simplify_eq.
      apply list_elem_of_lookup_2 in Hi.
      destruct (I3 _ _ Hi) as (T' & o & HT' & _).
      apply lookup_lt_Some in HT'. lia.
    + rewrite lookup_insert_ne in Hk' by done. eauto.
  - intros c t' o Hin. destruct (I7 c t' o Hin) as (T' & HT' & Hst).
    exists T'. split; [|done]. by apply lookup_app_l_Some.
Qed.

Lemma query_inv c k L : Inv L → Inv (query c k L).
Proof.
  intros HI. unfold query.
  destruct (request_cache L !! k) as [t|] eqn:Hk.
  - by apply await_inv.
  - by apply await_inv, register_inv.
Qed.

Lemma finish_inv t o L : Inv L → Inv (finish t o L).
Proof.
  intros HI. unfold finish.
  destruct (tasks L !! t) as [T|] eqn:Ht; [|done].
  destruct (state T) as [o'|] eqn:Hs; [done|].
  pose proof (lookup_lt_Some _ _ _ Ht) as Hlt.
  destruct HI as [I1 I2 I3 I4 I5 I6 I7].
  destruct (I2 t T Ht Hs) as [Hc [ws Hws]].
  assert (Hfresh : ∀ cb, (t, cb) ∉ ready L).
  { intros cb Hin. destruct (I3 _ _ Hin) as (T' & o' & HT' & Hst). congruence. }
  split; simpl.
  - intros k t' Hk. destruct (I1 k t' Hk) as (T' & HT' & Hkey & Hst).
    destruct (decide (t' = t)) as [->|Hne].
    + eexists. rewrite list_lookup_insert_eq by lia. split; [done|]. simpl.
      simplify_eq. split; [done|]. right. apply elem_of_app. right.
      rewrite Hws. simpl. left.
    + exists T'. rewrite list_lookup_insert_ne by done.
      split; [done|]. split; [done|].
      destruct Hst as [?|?]; [by left|right]. apply elem_of_app. by left.
  - intros t' T' HT' Hst.
    destruct (decide (t' = t)) as [->|Hne].
    + rewrite list_lookup_insert_eq in HT' by lia. by simplify_eq/=.
    + rewrite list_lookup_insert_ne in HT' by done. eauto.
  - intros t' cb [Hin|Hin]%elem_of_app.
    + destruct (I3 t' cb Hin) as (T' & o' & HT' & Hst).
      destruct (decide (t' = t)) as [->|Hne]; [congruence|].
      exists T', o'. by rewrite list_lookup_insert_ne.
    + apply list_elem_of_fmap in Hin as (cb' & Heq & _). simplify_eq.
      eexists _, o. by rewrite list_lookup_insert_eq by lia.
  - intros t' k [Hin|Hin]%elem_of_app; [eauto|].
    apply list_elem_of_fmap in Hin as (cb' & Heq & Hin). simplify_eq.
    rewrite Hws in Hin. apply elem_of_cons in Hin as [Heq|Hin].
    + by simplify_eq.
    + apply list_elem_of_fmap in Hin as (w & Heq & _). done.
  - rewrite pops_app, Hws, pops_callbacks. apply NoDup_app.
    split; [done|]. split; [|apply NoDup_singleton].
    intros t' [k Hin]%elem_of_pops ->%list_elem_of_singleton.
    by apply (Hfresh (Pop k)).
  - intros i t' c k Hi Hk.
    apply lookup_app_Some in Hi as [Hi|[Hge Hi]].
    + destruct (I6 i t' c k Hi Hk) as (j & Hj & Hpop).
      exists j. split; [done|]. by apply lookup_app_l_Some.
    + pose proof (list_elem_of_lookup_2 _ _ _ Hi) as Hin.
      apply list_elem_of_fmap in Hin as (cb' & Heq & _). simplify_eq.
      destruct (I1 k t Hk) as (T' & HT' & Hkey & _). simplify_eq.
      exists (length (ready L)). rewrite Hws in Hi |- *. simpl in *.
      split.
      * destruct (i - length (ready L))%nat eqn:Hd; [done|]. lia.
      * rewrite lookup_app_r by lia. by rewrite Nat.sub_diag.
  - intros c t' o' Hin. destruct (I7 c t' o' Hin) as (T' & HT' & Hst).
    destruct (decide (t' = t)) as [->|Hne]; [congruence|].
    exists T'. by rewrite list_lookup_insert_ne.
Qed.

Lemma run_callback_inv L : Inv L → Inv (run_callback L).
Proof.
  intros HI. unfold run_callback.
  destruct (ready L) as [|[t0 cb0] rest] eqn:Hr; [done|].
  destruct HI as [I1 I2 I3 I4 I5 I6 I7]. rewrite Hr in *.
  destruct cb0 as [k0|c0].
  - (* the ledger entry of [k0] is popped *)
    assert (Hk0 : request_cache L !! k0 = Some t0) by (apply I4; left).
    assert (Hrest : ∀ k, (t0, Pop k) ∉ rest).
    { intros k Hin. simpl in I5. apply NoDup_cons in I5 as [Hni _].
      apply Hni, elem_of_pops. eauto. }
    split; simpl.
    + intros k t Hk. apply lookup_delete_Some in Hk as [Hne Hk].
      destruct (I1 k t Hk) as (T & HT & Hkey & Hst).
      exists T. split; [done|]. split; [done|].
      destruct Hst as [?|Hin]; [by left|right].
      apply elem_of_cons in Hin as [?|?]; [congruence|done].
    + intros t T HT Hst. destruct (I2 t T HT Hst) as [Hc Hws].
      split; [|done]. rewrite lookup_delete_ne; [done|].
      intros ->. rewrite Hk0 in Hc. simplify_eq.
      destruct (I3 t (Pop (key T))) as (T' & o & HT' & Hst'); [left|].
      congruence.
    + intros t cb Hin. apply (I3 t cb). by right.
    + intros t k Hin. rewrite lookup_delete_ne; [apply I4; by right|].
      intros ->. assert (Hk : request_cache L !! k = Some t) by (apply I4; by right).
      rewrite Hk0 in Hk. simplify_eq. by apply (Hrest k).
    + simpl in I5. by apply NoDup_cons in I5 as [_ ?].
    + intros i t c k Hi Hk. apply lookup_delete_Some in Hk as [Hne Hk].
      destruct (I6 (S i) t c k Hi Hk) as (j & Hj & Hpop).
      destruct j as [|j]; [simpl in Hpop; congruence|].
      exists j. split; [lia|done].
    + done.
  - (* the caller [c0] resumes *)
    split; simpl.
    + intros k t Hk. destruct (I1 k t Hk) as (T & HT & Hkey & Hst).
      exists T. split; [done|]. split; [done|].
      destruct Hst as [?|Hin]; [by left|right].
      apply elem_of_cons in Hin as [?|?]; [congruence|done].
    + done.
    + intros t cb Hin. apply (I3 t cb). by right.
    + intros t k Hin. apply I4. by right.
    + done.
    + intros i t c k Hi Hk.
      destruct (I6 (S i) t c k Hi Hk) as (j & Hj & Hpop).
      destruct j as [|j]; [simpl in Hpop; congruence|].
      exists j. split; [lia|done].
    + destruct (I3 t0 (Wakeup c0)) as (T & o & HT & Hst); [left|].
      rewrite HT. simpl. rewrite Hst.
      intros c t o' [Hin|Hin%list_elem_of_singleton]%elem_of_app; [eauto|].
      simplify_eq. eauto.
Qed.

Lemma step_inv L e : Inv L → Inv (step L e).
Proof.
  destruct e; simpl; auto using query_inv, finish_inv, run_callback_inv.
Qed.

Lemma run_inv tr L : Inv L → Inv (run tr L).
Proof.
  revert L. induction tr as [|e tr IH]; intros L HI; [done|].
  simpl. apply IH. by apply step_inv.
Qed.

(** Every state the program reaches satisfies the invariant. *)
Lemma reachable_inv tr : Inv (run tr init).
Proof. apply run_inv, init_inv. Qed.

Lemma run_app tr1 tr2 L : run (tr1 ++ tr2) L = run tr2 (run tr1 L).
Proof. apply foldl_app. Qed.

(** *** Joining the request in flight *)

Lemma query_join c k t T L :
  request_cache L !! k = Some t → tasks L !! t = Some T → state T = None →
  query c k L =
    {| request_cache := request_cache L;
       tasks := <[t := {| key := key T; state := None;
                          callbacks := callbacks T ++ [Wakeup c] |}]> (tasks L);
       ready := ready L; returned := returned L |}.
Proof. intros Hk HT Hs. unfold query, await. by rewrite Hk, HT, Hs. Qed.

Lemma query_fresh c k L :
  request_cache L !! k = None →
  query c k L =
    {| request_cache := <[k := length (tasks L)]> (request_cache L);
       tasks := tasks L ++ [{| key := k; state := None;
                               callbacks := [Pop k; Wakeup c] |}];
       ready := ready L; returned := returned L |}.
Proof.
  intros Hk. unfold query, await. rewrite Hk. simpl.
  rewrite list_lookup_middle by done. simpl. f_equal.
  rewrite insert_app_r_alt, Nat.sub_diag by lia. done.
Qed.

Lemma queries_join k t cs : ∀ L T,
  request_cache L !! k = Some t → tasks L !! t = Some T → state T = None →
  run (((λ c, Query c k) <$> cs)) L =
    {| request_cache := request_cache L;
       tasks := <[t := {| key := key T; state := None;
                          callbacks := callbacks T ++ (Wakeup <$> cs) |}]> (tasks L);
       ready := ready L; returned := returned L |}.
Proof.
  induction cs as [|c cs IH]; intros L T Hk HT Hs; simpl.
  - rewrite app_nil_r. destruct L, T; simpl in *. subst.
    by rewrite list_insert_id.
  - pose proof (lookup_lt_Some _ _ _ HT) as Hlt.
    rewrite (query_join c k t T) by done.
    erewrite IH; simpl; [| done | by apply list_lookup_insert_eq | done].
    simpl. by rewrite list_insert_insert_eq, <- app_assoc.
Qed.

Lemma keys_insert t T T' (l : list Task) :
  l !! t = Some T → key T' = key T → key <$> <[t := T']> l = key <$> l.
Proof.
  intros Ht Hk. rewrite list_fmap_insert, Hk.
  apply list_insert_id. by rewrite list_lookup_fmap, Ht.
Qed.

(** *** Running the scheduled callbacks *)

Lemma run_callback_tasks L : tasks (run_callback L) = tasks L.
Proof. unfold run_callback. by destruct (ready L) as [|[? []] ?]. Qed.

Lemma run_callback_returned L x :
  x ∈ returned L → x ∈ returned (run_callback L).
Proof.
  unfold run_callback. destruct (ready L) as [|[t []] ?]; simpl; try done.
  destruct (tasks L !! t ≫= state); [|done]. intros. apply elem_of_app. by left.
Qed.

Lemma drain_tasks n : ∀ L, tasks (run (replicate n RunCallback) L) = tasks L.
Proof.
  induction n as [|n IH]; intros L; simpl; [done|].
  by rewrite IH, run_callback_tasks.
Qed.

Lemma drain_returned n : ∀ L x,
  x ∈ returned L → x ∈ returned (run (replicate n RunCallback) L).
Proof.
  induction n as [|n IH]; intros L x Hx; simpl; [done|].
  by apply IH, run_callback_returned.
Qed.

(** Every scheduled resumption within reach of [n] loop steps delivers the
    outcome of its task. *)
Lemma drain_wakeup n : ∀ L i t c o,
  ready L !! i = Some (t, Wakeup c) → (i < n)%nat →
  tasks L !! t ≫= state = Some o →
  (c, t, o) ∈ returned (run (replicate n RunCallback) L).
Proof.
  induction n as [|n IH]; intros L i t c o Hi Hlt Ho; [lia|].
  simpl. destruct i as [|i].
  - apply drain_returned. unfold run_callback.
    destruct (ready L) as [|[t' cb] rest]; simplify_eq/=.
    rewrite Ho. apply elem_of_app. right. left.
  - apply (IH _ i); [|lia|by rewrite run_callback_tasks].
    unfold run_callback.
    destruct (ready L) as [|[t' [k'|c']] rest]; simplify_eq/=; done.
Qed.

Lemma requests_snoc k (L L' : Loop) T :
  tasks L' = tasks L ++ [T] → key T = k → requests k L' = S (requests k L).
Proof.
  intros HL <-. unfold requests.
  rewrite HL, fmap_app, filter_app, length_app. simpl.
  rewrite filter_cons_True by done. simpl. lia.
Qed.

(** N callers of a key that has no entry: one task, and its outcome
    reaches each of them. *)
Lemma queries_share k cs o L :
  request_cache L !! k = None → cs ≠ [] →
  let t := length (tasks L) in
  let L1 := run (((λ c, Query c k) <$> cs)) L in
  let L2 := run (Finish t o ::
                 replicate (length (ready L) + S (length cs)) RunCallback) L1 in
  requests k L1 = S (requests k L) ∧ requests k L2 = S (requests k L) ∧
  ∀ c, c ∈ cs → (c, t, o) ∈ returned L2.
Proof.
  intros Hk Hcs. destruct cs as [|c0 cs]; [done|]. clear Hcs.
  intros t L1 L2. subst L1 L2. simpl.
  rewrite (query_fresh c0 k L Hk).
  set (T0 := {| key := k; state := None; callbacks := [Pop k; Wakeup c0] |}).
  erewrite (queries_join k t cs _ T0); simpl;
    [| by apply lookup_insert_eq | by apply list_lookup_middle | done ].
  assert (Hlt : (t < length (tasks L ++ [T0]))%nat)
    by (rewrite length_app; simpl; lia).
  set (T1 := {| key := k; state := None;
                callbacks := Pop k :: Wakeup c0 :: (Wakeup <$> cs) |}).
  assert (Hkeys : key <$> <[t := T1]> (tasks L ++ [T0])
                  = (key <$> tasks L) ++ [k]).
  { rewrite (keys_insert t T0) by (by apply list_lookup_middle || done).
    by rewrite fmap_app. }
  assert (Hreq : ∀ l, key <$> l = (key <$> tasks L) ++ [k] →
     length (filter (λ k', k' = k) (key <$> l)) = S (requests k L)).
  { intros l ->. unfold requests. rewrite filter_app, length_app. simpl.
    rewrite filter_cons_True by done. simpl. lia. }
  split; [by apply Hreq|].
  unfold finish at 1 2. simpl.
  rewrite list_lookup_insert_eq by done. simpl.
  rewrite list_insert_insert_eq.
  set (T2 := {| key := k; state := Some o; callbacks := [] |}).
  split.
  - unfold requests. rewrite drain_tasks. simpl. apply Hreq.
    rewrite (keys_insert t T0) by (by apply list_lookup_middle || done).
    by rewrite fmap_app.
  - intros c Hc. apply list_elem_of_lookup in Hc as [i Hi].
    pose proof (lookup_lt_Some _ _ _ Hi) as Hil. simpl in Hil.
    apply (drain_wakeup _ _ (length (ready L) + S i)); simpl.
    + rewrite lookup_app_r by lia.
      replace (length (ready L) + S i - length (ready L))%nat with (S i) by lia.
      simpl. fold_classes.
      change ((pair t <$> (Wakeup <$> c0 :: cs)) !! i = Some (t, Wakeup c)).
      by rewrite !list_lookup_fmap, Hi.
    + lia.
    + by rewrite list_lookup_insert_eq.
Qed.

(** C1.  Concurrent calls of [BaseResolver.query] with one key share one
    underlying request.  In every state [L] the program can reach:
    at most one task per key is in flight, and the ledger holds it;
    a call made while a task for its key is in flight creates no task,
    leaves the ledger as it is and suspends the caller on that task;
    all callers answered by one task received one and the same outcome
    (result or error);
    and N calls for a key without entry start exactly one request, whose
    outcome is delivered to each of the N callers. *)
Theorem query_dedup (tr : list event) :
  let L := run tr init in
  (∀ k t1 t2, pending L t1 k → pending L t2 k →
     t1 = t2 ∧ request_cache L !! k = Some t1) ∧
  (∀ c k t, pending L t k →
     (∀ k', requests k' (query c k L) = requests k' L) ∧
     request_cache (query c k L) = request_cache L ∧
     ∃ T, tasks L !! t = Some T ∧
          tasks (query c k L) !! t =
            Some {| key := k; state := None;
                    callbacks := callbacks T ++ [Wakeup c] |}) ∧
  (∀ c1 c2 t o1 o2,
     (c1, t, o1) ∈ returned L → (c2, t, o2) ∈ returned L → o1 = o2) ∧
  (∀ k cs o, request_cache L !! k = None → cs ≠ [] →
     let t := length (tasks L) in
     let L1 := run (((λ c, Query c k) <$> cs)) L in
     let L2 := run (Finish t o ::
                    replicate (length (ready L) + S (length cs)) RunCallback) L1 in
     requests k L1 = S (requests k L) ∧ requests k L2 = S (requests k L) ∧
     ∀ c, c ∈ cs → (c, t, o) ∈ returned L2).
Proof.
  intros L. pose proof (reachable_inv tr) as HI. fold L in HI.
  split; [|split; [|split]].
  - intros k t1 t2 (T1 & HT1 & Hk1 & Hs1) (T2 & HT2 & Hk2 & Hs2).
    destruct (inv_pending L HI t1 T1 HT1 Hs1) as [Hc1 _].
    destruct (inv_pending L HI t2 T2 HT2 Hs2) as [Hc2 _].
    rewrite Hk1 in Hc1. rewrite Hk2 in Hc2. split; [congruence|done].
  - intros c k t (T & HT & Hk & Hs).
    destruct (inv_pending L HI t T HT Hs) as [Hc _]. rewrite Hk in Hc.
    rewrite (query_join c k t T L Hc HT Hs). simpl.
    pose proof (lookup_lt_Some _ _ _ HT) as Hlt.
    split; [|split; [done|]].
    + intros k'. unfold requests. simpl. by rewrite (keys_insert t T).
    + exists T. split; [done|]. rewrite list_lookup_insert_eq by done.
      by rewrite Hk.
  - intros c1 c2 t o1 o2 H1 H2.
    destruct (inv_returned L HI c1 t o1 H1) as (T1 & HT1 & Hs1).
    destruct (inv_returned L HI c2 t o2 H2) as (T2 & HT2 & Hs2).
    congruence.
  - intros k cs o Hk Hcs. by apply queries_share.
Qed.

(** Two callers of [example_key] join the task of a first one while a task
    for another key is in flight as well; the three share one request. *)
Lemma query_dedup_witness :
  let L := run [Query 7 other_key] init in
  request_cache L !! example_key = None ∧
  let L2 := run (((λ c, Query c example_key) <$> [1; 2; 3]%nat) ++
                 Finish 1 (Raises TimeoutError) ::
                 replicate 4 RunCallback) L in
  requests example_key L2 = 1%nat ∧
  (1, 1, Raises TimeoutError)%nat ∈ returned L2 ∧
  (2, 1, Raises TimeoutError)%nat ∈ returned L2 ∧
  (3, 1, Raises TimeoutError)%nat ∈ returned L2.
Proof.
  intros L. split; [done|]. intros L2.
  destruct (query_dedup [Query 7 other_key]) as (_ & _ & _ & H).
  destruct (H example_key [1; 2; 3]%nat (Raises TimeoutError))
    as (_ & H2 & H3); [done|done|].
  unfold L2, L. rewrite run_app.
  split; [exact H2|].
  split; [|split]; apply H3; apply list_elem_of_In; simpl; tauto.
Defined.

(** C6 (as amended).  The ledger entry of a settled request is removed by
    the task's done callback.  In every reachable state: an entry of the
    ledger belongs to a task in flight or to a settled task whose done
    callback is still queued; running that callback removes the entry; a
    caller that waited for the task is resumed only after that, so that
    when its [query] returns the ledger does not refer to the settled
    task any more; and a call for a key without entry starts a new
    underlying request. *)
Theorem query_cleanup (tr : list event) :
  let L := run tr init in
  (∀ k t, request_cache L !! k = Some t →
     pending L t k ∨ (t, Pop k) ∈ ready L) ∧
  (∀ t k rest, ready L = (t, Pop k) :: rest →
     request_cache (run_callback L) !! k = None) ∧
  (∀ t c rest, ready L = (t, Wakeup c) :: rest →
     ∃ o, returned (run_callback L) = returned L ++ [(c, t, o)] ∧
          ∀ k, request_cache (run_callback L) !! k ≠ Some t) ∧
  (∀ c k, request_cache L !! k = None →
     requests k (query c k L) = S (requests k L) ∧
     pending (query c k L) (length (tasks L)) k).
Proof.
  intros L. pose proof (reachable_inv tr) as HI. fold L in HI.
  split; [|split; [|split]].
  - intros k t Hk. destruct (inv_cache L HI k t Hk) as (T & HT & Hkey & Hst).
    destruct Hst as [Hst|Hin]; [left|by right]. by exists T.
  - intros t k rest Hr. unfold run_callback. rewrite Hr. simpl.
    apply lookup_delete_eq.
  - intros t c rest Hr.
    destruct (inv_ready L HI t (Wakeup c)) as (T & o & HT & Hst);
      [rewrite Hr; left|].
    exists o. unfold run_callback. rewrite Hr, HT. simpl. rewrite Hst.
    split; [done|]. intros k Hk.
    destruct (inv_order L HI 0%nat t c k) as (j & Hj & _);
      [by rewrite Hr | done | lia].
  - intros c k Hk. rewrite (query_fresh c k L Hk). split.
    + by eapply requests_snoc.
    + eexists. simpl. split; [by apply list_lookup_middle|done].
Qed.

(** A caller waits for the request, the request times out, the loop runs
    the done callback: the caller is resumed with the ledger cleared, and
    the next call starts a second request. *)
Lemma query_cleanup_witness :
  let L := run [Query 1 example_key; Finish 0 (Raises TimeoutError);
                RunCallback] init in
  ready L = [(0, Wakeup 1)]%nat ∧
  (∃ o, returned (run_callback L) = returned L ++ [(1, 0, o)]%nat ∧
        ∀ k, request_cache (run_callback L) !! k ≠ Some 0%nat) ∧
  request_cache (run_callback L) !! example_key = None ∧
  requests example_key (query 2 example_key (run_callback L)) = 2%nat.
Proof.
  intros L. split; [done|]. split; [|split].
  - by apply (proj1 (proj2 (proj2 (query_cleanup
      [Query 1 example_key; Finish 0 (Raises TimeoutError); RunCallback])))
      0%nat 1%nat []).
  - done.
  - apply (proj2 (proj2 (proj2 (query_cleanup
      [Query 1 example_key; Finish 0 (Raises TimeoutError); RunCallback;
       RunCallback]))) 2%nat example_key). done.
Defined.

(** C6 as stated fails for a caller that arrives after the task has
    finished and before the loop has run its done callback: the call
    returns at once with the finished task's result, the ledger still
    holds the entry, and the next call with the same key is answered from
    it as well, without a new request. *)
Lemma query_cleanup_late_caller :
  let L := run [Query 1 example_key; Finish 0 (Returns example_response);
                Query 2 example_key] init in
  returned L = [(2, 0, Returns example_response)]%nat ∧
  request_cache L !! example_key = Some 0%nat ∧
  requests example_key L = 1%nat ∧
  requests example_key (query 3 example_key L) = 1%nat ∧
  returned (query 3 example_key L) =
    [(2, 0, Returns example_response); (3, 0, Returns example_response)]%nat.
Proof. repeat split. Qed.
End BaseResolverFacts.

Module QueryFacts.
Import Query.

Create HintDb keeps.

Section Facts.
Context {W NS : Type}.
Context (resolver : Resolver W NS) (fqdn : string) (qtype : Z).

Local Abbreviation query_loop := (Query.query_loop resolver qtype).
Local Abbreviation query := (Query.query resolver fqdn qtype).

(** Once the future is cancelled, a round of the loop of [query] does
    nothing and goes round again. *)
Lemma query_loop_cancelled fuel : ∀ domain nameservers s,
  future s = Cancelled → query_loop fuel domain nameservers s = OutOfFuel.
Proof.
  induction fuel as [|fuel IH]; intros domain nameservers s Hc; [done|].
  simpl. unfold mbind, M_bind, cancelled. rewrite Hc. simpl.
  rewrite Hc. simpl. by apply IH.
Qed.

(** *** Properties of the state that the coroutines keep *)

Section Preserves.
Context (P : State W → Prop).

Lemma preserves_ret {A} (a : A) : preserves P (mret a : Query.M A).
Proof. intros s s' HP [= <-]. done. Qed.

Lemma preserves_raise {A} e : preserves P (raise e : Query.M A).
Proof. intros s s' HP [= <-]. done. Qed.

Lemma preserves_out_of_fuel {A} : preserves P (out_of_fuel : Query.M A).
Proof. intros s s' HP [=]. Qed.

Lemma preserves_lift {A} (x : res A) : preserves P (lift x).
Proof. intros s s' HP. unfold lift. destruct x; intros [= <-]; done. Qed.

Lemma preserves_bind {A B} (m : Query.M A) (f : A → Query.M B) :
  preserves P m → (∀ a, preserves P (f a)) → preserves P (m ≫= f).
Proof.
  intros Hm Hf s s' HP. unfold mbind, M_bind.
  destruct (m s) as [a s1|e s1|] eqn:Hms; simpl.
  - apply (Hf a). apply (Hm s); [done|by rewrite Hms].
  - intros [= <-]. apply (Hm s); [done|by rewrite Hms].
  - done.
Qed.

Lemma preserves_try {A B} (m : Query.M A) (h : exn → Query.M B)
    (f : A → Query.M B) :
  preserves P m → (∀ e, preserves P (h e)) → (∀ a, preserves P (f a)) →
  preserves P (try_except_else m h f).
Proof.
  intros Hm Hh Hf s s' HP. unfold try_except_else.
  destruct (m s) as [a s1|e s1|] eqn:Hms; simpl.
  - apply (Hf a). apply (Hm s); [done|by rewrite Hms].
  - apply (Hh e). apply (Hm s); [done|by rewrite Hms].
  - done.
Qed.

Lemma preserves_cancelled : preserves P cancelled.
Proof. intros s s' HP [= <-]. done. Qed.

Lemma preserves_get_self : preserves P get_self.
Proof. intros s s' HP [= <-]. done. Qed.
End Preserves.

(** None of the steps below settles the future. *)
Lemma unsettled_set_result_message f : preserves (@unsettled W) (set_result_message f).
Proof. intros s s' HP [= <-]. done. Qed.

Lemma unsettled_set_from_cache b : preserves (@unsettled W) (set_from_cache b).
Proof. intros s s' HP [= <-]. done. Qed.

Lemma unsettled_debug fmt : preserves (@unsettled W) (debug fmt).
Proof. intros s s' HP [= <-]. done. Qed.

Lemma unsettled_call {A} ev (op : W → A * W) : preserves (@unsettled W) (call ev op).
Proof.
  intros s s' HP. unfold call. destruct (op (world s)). intros [= <-]. done.
Qed.

Lemma unsettled_await {A} ev (op : W → res A * bool * W) :
  preserves (@unsettled W) (await ev op).
Proof.
  intros s s' HP. unfold await. destruct (op (world s)) as [[x c] w].
  assert (unsettled (Build_State (_result s) (from_cache s)
            (if c then cancel (future s) else future s)
            (calls s ++ [ev]) w)).
  { unfold unsettled in *. simpl. destruct c; [|done].
    destruct HP as [->| ->]; simpl; auto. }
  destruct x; intros [= <-]; done.
Qed.

#[local] Hint Resolve preserves_ret preserves_raise preserves_out_of_fuel
  preserves_lift preserves_cancelled preserves_get_self
  unsettled_set_result_message unsettled_set_from_cache unsettled_debug
  unsettled_call unsettled_await : keeps.

(** Splits a coroutine along its binds and branches. *)
Ltac keeps :=
  repeat first
    [ progress eauto with keeps
    | apply preserves_bind; [|intros ?]
    | apply preserves_try; [|intros ?|intros ?]
    | match goal with
      | |- preserves _ (if ?b then _ else _) => destruct b
      | |- preserves _ (match ?x with _ => _ end) => destruct x
      end ].

Lemma unsettled_query_cache_targets cname :
  preserves (@unsettled W) (query_cache_targets resolver qtype cname).
Proof. induction cname as [|rec rest IH]; simpl; keeps. Qed.

Lemma unsettled_query_cache_scan domain recs : ∀ cache_hit,
  preserves (@unsettled W) (query_cache_scan resolver qtype domain recs cache_hit).
Proof.
  induction recs as [|rec rest IH]; intros cache_hit; simpl; keeps.
  all: unfold cache_query_; keeps.
Qed.

Lemma unsettled_query_cache domain :
  preserves (@unsettled W) (query_cache resolver qtype domain).
Proof.
  unfold query_cache, cache_query_, under_rootdomains.
  pose proof unsettled_query_cache_targets.
  pose proof unsettled_query_cache_scan.
  keeps.
Qed.

Lemma unsettled_request_remote fuel : ∀ nameservers req e,
  preserves (@unsettled W) (Query.request_remote resolver fuel nameservers req e).
Proof.
  induction fuel as [|fuel IH]; intros nameservers req e; simpl; keeps.
  all: unfold request_remote_try, request_once, first; keeps.
Qed.

Lemma unsettled_query_remote fuel domain nameservers :
  preserves (@unsettled W) (query_remote resolver qtype fuel domain nameservers).
Proof.
  unfold query_remote, query_remote_once.
  pose proof (unsettled_request_remote fuel).
  keeps.
Qed.

Lemma unsettled_query_loop fuel : ∀ domain nameservers,
  preserves (@unsettled W) (query_loop fuel domain nameservers).
Proof.
  pose proof unsettled_query_cache.
  induction fuel as [|fuel IH]; intros domain nameservers; simpl.
  { keeps. }
  pose proof (unsettled_query_remote fuel).
  keeps.
Qed.

(** *** One round of the loop of [query] *)

Lemma query_loop_round fuel domain nameservers s :
  future s ≠ Cancelled →
  query_loop (S fuel) domain nameservers s =
    match Query.query_cache resolver qtype domain s with
    | Return hit sc =>
        let sc' := logged "[query_cache][%s][%s] %s"
                          (with_from_cache hit sc) in
        if hit then Return tt sc'
        else if decide (future sc' = Cancelled)
        then query_loop fuel domain nameservers sc'
        else
          match query_remote resolver qtype fuel domain nameservers sc' with
          | Return None s1 => Return tt s1
          | Return (Some (domain, nameservers)) s1 =>
              query_loop fuel domain nameservers s1
          | Raise e s1 => Raise e s1
          | OutOfFuel => OutOfFuel
          end
    | Raise e sc => Raise e sc
    | OutOfFuel => OutOfFuel
    end.
Proof.
  intros Hc. simpl.
  unfold mbind, mret, M_bind, M_ret, cancelled at 1, set_from_cache, debug.
  destruct (future s) eqn:Hf; try done; simpl;
    destruct (Query.query_cache resolver qtype domain s)
      as [[] sc|? sc|]; try done; simpl;
    unfold cancelled; simpl;
    destruct (future sc) eqn:Hfsc; simpl; try done;
    destruct (query_remote _ _ _ _ _ _) as [[[]|]|?|]; done.
Qed.

(** *** [request_remote] *)

Local Abbreviation request_remote := (Query.request_remote resolver).
Local Abbreviation request_remote_try := (Query.request_remote_try resolver).
Local Abbreviation request_once := (Query.request_once resolver).
Local Abbreviation marked_failed := (Query.marked_failed resolver).

Lemma not_cancelled (s : State W) :
  future s ≠ Cancelled → cancelled s = Return false s.
Proof. unfold cancelled. by destruct (future s). Qed.

(** One round of the loop, up to the outcome of the [try] body. *)
Lemma request_remote_round fuel nameservers req e s addr w1 :
  future s ≠ Cancelled →
  ns_get resolver nameservers (world s) = (Some addr, w1) →
  request_remote (S fuel) nameservers req e s =
    match request_remote_try req addr (record_call Get w1 s) with
    | Return inter_res s2 => Return (Some inter_res) s2
    | Raise exc s2 =>
        match exc with
        | TimeoutError | AssertionError _ =>
            request_remote fuel nameservers req None
              (marked_failed nameservers addr s2)
        | DNSError _ _ =>
            match e with
            | None => Raise (UnboundLocalError "e") s2
            | Some _ =>
                request_remote fuel nameservers req e
                  (logged "[request_remote][dns_error] %s" s2)
            end
        | _ => Raise exc s2
        end
    | OutOfFuel => OutOfFuel
    end.
Proof.
  intros Hc Hget. simpl. unfold mbind, M_bind at 1.
  rewrite not_cancelled by done. unfold M_bind at 1, call.
  rewrite Hget. unfold try_except_else.
  destruct (request_remote_try req addr (record_call Get w1 s))
    as [inter_res s2|exc s2|]; try done.
  destruct exc; try done. by destruct e.
Qed.

Lemma request_remote_exhausted fuel nameservers req e s w1 :
  future s ≠ Cancelled →
  ns_get resolver nameservers (world s) = (None, w1) →
  request_remote (S fuel) nameservers req e s =
    Raise InvalidNameServer (record_call Get w1 s).
Proof.
  intros Hc Hget. simpl. unfold mbind, M_bind at 1.
  rewrite not_cancelled by done. unfold M_bind, call. by rewrite Hget.
Qed.

Lemma request_remote_try_raises req addr e s1 s2 :
  request_once req addr None s1 = Raise e s2 →
  request_remote_try req addr s1 = Raise e s2.
Proof.
  intros H. unfold Query.request_remote_try, mbind, M_bind at 1.
  by rewrite H.
Qed.

(** The [try] body on a response that parses, by what lines 154-156 find. *)
Lemma request_remote_try_parsed req addr s1 data s2 inter_res q l q' l' :
  request_once req addr None s1 = Return data s2 →
  parse resolver data = Val inter_res →
  DNSMessage.qd inter_res = q :: l → DNSMessage.qd req = q' :: l' →
  request_remote_try req addr s1 =
    let s3 := logged "[request_remote] %s" s2 in
    if bool_decide (Rec.name q ≠ Rec.name q')
    then Raise (DNSError (-1) "Question section mismatch") s3
    else if DNSMessage.r inter_res =? 2
    then Raise (AssertionError "Remote server fail") s3
    else Return inter_res s3.
Proof.
  intros Hreq Hparse Hq Hq'.
  unfold Query.request_remote_try, mbind, M_bind at 1. rewrite Hreq.
  unfold M_bind at 1, lift. rewrite Hparse.
  unfold M_bind at 1, debug. unfold M_bind at 1, Query.first.
  rewrite Hq. unfold mret, M_ret. unfold M_bind. rewrite Hq'.
  case_bool_decide; [done|]. by destruct (_ =? 2).
Qed.

(** What [request_remote] raises is never a timeout and never the failed
    assertion on the result code. *)
Lemma request_remote_no_server_error fuel : ∀ nameservers req e s exc s',
  request_remote fuel nameservers req e s = Raise exc s' →
  exc ≠ TimeoutError ∧ ∀ msg, exc ≠ AssertionError msg.
Proof.
  induction fuel as [|fuel IH]; intros nameservers req e s exc s' H; [done|].
  destruct (decide (future s = Cancelled)) as [Hc|Hc].
  { simpl in H. unfold mbind, M_bind at 1, cancelled in H.
    by rewrite Hc in H. }
  destruct (ns_get resolver nameservers (world s)) as [[addr|] w1] eqn:Hget.
  - rewrite (request_remote_round _ _ _ _ _ addr w1) in H by done.
    destruct (request_remote_try req addr (record_call Get w1 s))
      as [inter_res s2|exc2 s2|]; try done.
    destruct exc2; try (by simplify_eq); eauto.
    destruct e; [eauto|by simplify_eq].
  - rewrite (request_remote_exhausted _ _ _ _ _ w1) in H by done.
    by simplify_eq.
Qed.

(** C3 (as amended).  In a round of [request_remote] that starts with the
    future not cancelled: if [get()] has no address left,
    [InvalidNameServer] is raised; a timeout of the request, and a
    response to the right question with result code 2, make the first
    handler log, call [fail(addr)] on the nameserver set and start the
    next round of the loop; a response whose question name differs is
    raised as [DNSError(-1, 'Question section mismatch')], which that
    handler does not catch, so that the round ends without a call of
    [fail(addr)]; and neither a timeout nor the failed assertion on the
    result code is ever raised to the caller of [request_remote]. *)
Theorem request_remote_failover fuel nameservers req e s :
  future s ≠ Cancelled →
  (∀ w1, ns_get resolver nameservers (world s) = (None, w1) →
     request_remote (S fuel) nameservers req e s =
       Raise InvalidNameServer (record_call Get w1 s)) ∧
  (∀ addr w1 s2,
     ns_get resolver nameservers (world s) = (Some addr, w1) →
     request_once req addr None (record_call Get w1 s) = Raise TimeoutError s2 →
     request_remote (S fuel) nameservers req e s =
       request_remote fuel nameservers req None
         (marked_failed nameservers addr s2)) ∧
  (∀ addr w1 data s2 inter_res q l q' l',
     ns_get resolver nameservers (world s) = (Some addr, w1) →
     request_once req addr None (record_call Get w1 s) = Return data s2 →
     parse resolver data = Val inter_res →
     DNSMessage.qd inter_res = q :: l → DNSMessage.qd req = q' :: l' →
     let s3 := logged "[request_remote] %s" s2 in
     (Rec.name q = Rec.name q' → DNSMessage.r inter_res = 2 →
        request_remote (S fuel) nameservers req e s =
          request_remote fuel nameservers req None
            (marked_failed nameservers addr s3)) ∧
     (Rec.name q ≠ Rec.name q' →
        request_remote_try req addr (record_call Get w1 s) =
          Raise (DNSError (-1) "Question section mismatch") s3 ∧
        (request_remote (S fuel) nameservers req e s =
           Raise (UnboundLocalError "e") s3 ∨
         request_remote (S fuel) nameservers req e s =
           request_remote fuel nameservers req e
             (logged "[request_remote][dns_error] %s" s3)))) ∧
  (∀ exc s', request_remote (S fuel) nameservers req e s = Raise exc s' →
     exc ≠ TimeoutError ∧ ∀ msg, exc ≠ AssertionError msg).
Proof.
  intros Hc. split; [|split; [|split]].
  - intros w1 Hget. by apply request_remote_exhausted.
  - intros addr w1 s2 Hget Hreq.
    rewrite (request_remote_round _ _ _ _ _ addr w1) by done.
    by rewrite (request_remote_try_raises _ _ _ _ _ Hreq).
  - intros addr w1 data s2 inter_res q l q' l' Hget Hreq Hparse Hq Hq' s3.
    pose proof (request_remote_try_parsed _ _ _ _ _ _ _ _ _ _
                  Hreq Hparse Hq Hq') as Htry. simpl in Htry. fold s3 in Htry.
    rewrite (request_remote_round _ _ _ _ _ addr w1) by done.
    rewrite Htry. split.
    + intros Hname Hr. rewrite bool_decide_eq_false_2 by tauto.
      by rewrite Hr.
    + intros Hname. rewrite bool_decide_eq_true_2 by done.
      split; [done|]. destruct e; [by right|by left].
  - intros exc s'. apply request_remote_no_server_error.
Qed.

(** C4.  A [DNSError] raised in the [try] body (by [DNSMessage.parse] on
    a malformed response, for one) reaches the second handler, whose
    logging call reads the variable [e], unbound there:
    [request_remote] raises [UnboundLocalError] from the state in which
    the error arose, without logging and without another round. *)
Theorem request_remote_dns_error fuel nameservers req s addr w1 code msg s2 :
  future s ≠ Cancelled →
  ns_get resolver nameservers (world s) = (Some addr, w1) →
  request_remote_try req addr (record_call Get w1 s) =
    Raise (DNSError code msg) s2 →
  request_remote (S fuel) nameservers req None s =
    Raise (UnboundLocalError "e") s2.
Proof.
  intros Hc Hget Htry.
  rewrite (request_remote_round _ _ _ _ _ addr w1) by done.
  by rewrite Htry.
Qed.

(** *** [query_remote] *)

Local Abbreviation query_remote := (Query.query_remote resolver qtype).
Local Abbreviation query_remote_once :=
  (Query.query_remote_once resolver qtype).
Local Abbreviation answers_query := (Query.answers_query qtype).
Local Abbreviation settles_query := (Query.settles_query qtype).
Local Abbreviation merged := (Query.merged resolver).

Lemma foldl_answer_step recs : ∀ result cname has_result,
  foldl (answer_step qtype) (result, cname, has_result) recs =
    (DNSMessage.set_an (DNSMessage.an result ++ recs) result,
     cname ++ cname_targets recs,
     has_result || existsb answers_query recs).
Proof.
  induction recs as [|rec rest IH]; intros result cname has_result; simpl.
  { rewrite !app_nil_r, orb_false_r. by destruct result. }
  rewrite IH. unfold cname_targets, Query.answers_query. simpl.
  rewrite <- app_assoc. f_equal; [f_equal|].
  - rewrite filter_cons. case_decide as Hq.
    + apply Z.eqb_eq in Hq. rewrite Hq. by rewrite fmap_cons, <- app_assoc.
    + apply Z.eqb_neq in Hq. by rewrite Hq.
  - destruct ((qtype =? types.CNAME) || negb (Rec.qtype rec =? types.CNAME));
      simpl; by rewrite ?orb_true_r.
Qed.

Lemma foldl_authority_step recs : ∀ result has_result has_ns,
  foldl (authority_step resolver qtype) (result, has_result, has_ns) recs =
    (if negb (recursive resolver)
     then DNSMessage.set_ns (DNSMessage.ns result ++ recs) result
     else result,
     has_result || existsb settles_query recs,
     has_ns || existsb (λ rec, negb (settles_query rec)) recs).
Proof.
  induction recs as [|rec rest IH]; intros result has_result has_ns; simpl.
  { rewrite !app_nil_r, !orb_false_r. destruct result.
    by destruct (negb _). }
  change ((Rec.qtype rec =? types.SOA) || (qtype =? types.NS))
    with (settles_query rec).
  destruct (settles_query rec) eqn:Hs;
    rewrite IH; simpl;
    destruct (negb (recursive resolver)); simpl;
    rewrite <- ?app_assoc, ?orb_true_r, ?orb_false_r; simpl; done.
Qed.

(** [query_remote] on a response, by what the response contains. *)
Lemma query_remote_classify fuel domain nameservers s inter_res s1 :
  query_remote_once fuel domain nameservers s = Return (Some inter_res) s1 →
  query_remote fuel domain nameservers s =
    let result := merged (_result s1) inter_res in
    if existsb answers_query (DNSMessage.an inter_res)
       || existsb settles_query (DNSMessage.ns inter_res)
    then Return None (with_result result s1)
    else
      match cname_targets (DNSMessage.an inter_res) with
      | target :: _ => Return (Some (target, None)) (with_result result s1)
      | [] =>
          if negb (recursive resolver) then
            Return None
              (with_result
                 (DNSMessage.set_r (DNSMessage.r inter_res) result) s1)
          else if negb (existsb (λ rec, negb (settles_query rec))
                                (DNSMessage.ns inter_res)) then
            Return None (with_result (DNSMessage.set_r 2 result) s1)
          else
            match nsips_of (nsip_map_of (DNSMessage.ar inter_res))
                           (DNSMessage.ns inter_res) [] with
            | Exc e => Raise e (with_result result s1)
            | Val nsips =>
                Return
                  (Some (domain,
                         Some (NameServers resolver nsips (world s1)).1))
                  (record_call (NewNameServers nsips)
                     (NameServers resolver nsips (world s1)).2
                     (with_result result s1))
            end
      end.
Proof.
  intros Honce. unfold Query.query_remote, mbind, M_bind at 1.
  rewrite Honce. unfold M_bind at 1, get_self.
  rewrite foldl_answer_step, foldl_authority_step. simpl.
  unfold Query.merged. simpl.
  unfold mbind, mret, M_bind, M_ret, set_result_message, lift, call. simpl.
  destruct (existsb answers_query _); simpl.
  { by destruct (negb (recursive resolver)). }
  destruct (existsb settles_query _); simpl.
  { by destruct (negb (recursive resolver)). }
  destruct (cname_targets _) as [|target rest]; simpl.
  2: { by destruct (negb (recursive resolver)). }
  destruct (recursive resolver); simpl; [|done].
  destruct (existsb _ _); simpl; [|done].
  destruct (nsips_of _ _ _) as [nsips|e]; simpl; [|done].
  by destruct (NameServers resolver nsips (world s1)).
Qed.

(** C8.  When no answer record and no authority record of the response
    satisfies the query ([has_result] stays false) and the answer
    section holds a CNAME record, [query_remote] returns the data of the
    first such record together with [None]; the loop of [query] goes on
    with that name and no nameserver set, and [query_remote_once], given
    no nameserver set, asks the resolver for the nameservers of that
    name. *)
Theorem query_remote_follows_cname fuel domain nameservers s inter_res s1
    target :
  query_remote_once fuel domain nameservers s = Return (Some inter_res) s1 →
  existsb answers_query (DNSMessage.an inter_res) = false →
  existsb settles_query (DNSMessage.ns inter_res) = false →
  head (cname_targets (DNSMessage.an inter_res)) = Some target →
  let s2 := with_result (merged (_result s1) inter_res) s1 in
  query_remote fuel domain nameservers s = Return (Some (target, None)) s2 ∧
  (∀ s0 sc,
     future s0 ≠ Cancelled →
     Query.query_cache resolver qtype domain s0 = Return false sc →
     s = logged "[query_cache][%s][%s] %s" (with_from_cache false sc) →
     future s ≠ Cancelled →
     query_loop (S fuel) domain nameservers s0 =
       query_loop fuel target None s2) ∧
  (∀ fuel' s',
     query_remote_once fuel' target None s' =
       query_remote_once fuel' target
         (Some (get_nameservers resolver target (world s')).1)
         (record_call (GetNameservers target)
            (get_nameservers resolver target (world s')).2 s')).
Proof.
  intros Honce Han Hns Hhead s2.
  assert (Hremote : query_remote fuel domain nameservers s =
                    Return (Some (target, None)) s2).
  { rewrite (query_remote_classify _ _ _ _ _ _ Honce). simpl.
    rewrite Han, Hns. simpl.
    destruct (cname_targets _) as [|t rest]; simplify_eq/=. done. }
  split; [done|]. split.
  - intros s0 sc Hc0 Hcache Hs Hc.
    rewrite query_loop_round by done. rewrite Hcache. simpl.
    rewrite Hs in Hc. simpl in Hc. rewrite decide_False by done.
    by rewrite <- Hs, Hremote.
  - intros fuel' s'. unfold Query.query_remote_once, mbind, M_bind at 1 3, call.
    by destruct (get_nameservers resolver target (world s')).
Qed.

(** *** The glue addresses of a delegation *)

Lemma nsip_map_of_snoc ar rec :
  nsip_map_of (ar ++ [rec]) =
    <[(Rec.name rec, Rec.qtype rec) := Rec.data rec]> (nsip_map_of ar).
Proof. unfold nsip_map_of. by rewrite foldl_app. Qed.

(** The map answers a look-up for an A record from the A records alone. *)
Lemma nsip_map_of_A ar host :
  nsip_map_of ar !! (host, types.A) =
    nsip_map_of (filter (λ rec, Rec.qtype rec = types.A) ar) !! (host, types.A).
Proof.
  induction ar as [|rec ar IH] using rev_ind; [done|].
  rewrite filter_app, filter_cons, filter_nil, nsip_map_of_snoc.
  case_decide as Hq.
  - rewrite nsip_map_of_snoc.
    destruct (decide ((Rec.name rec, Rec.qtype rec) = (host, types.A)))
      as [->|Hne].
    + by rewrite !lookup_insert_eq.
    + by rewrite !lookup_insert_ne.
  - rewrite app_nil_r, lookup_insert_ne; [done|]. congruence.
Qed.

Lemma nsip_map_of_Some ar k ip :
  nsip_map_of ar !! k = Some ip →
  ∃ rec, rec ∈ ar ∧ (Rec.name rec, Rec.qtype rec) = k ∧ Rec.data rec = ip.
Proof.
  induction ar as [|rec ar IH] using rev_ind; [done|].
  rewrite nsip_map_of_snoc.
  destruct (decide ((Rec.name rec, Rec.qtype rec) = k)) as [<-|Hne].
  - rewrite lookup_insert_eq. intros [= <-]. exists rec.
    split; [|done]. apply elem_of_app. right. left.
  - rewrite lookup_insert_ne by done. intros (rec' & Hin & ?)%IH.
    exists rec'. split; [|done]. apply elem_of_app. by left.
Qed.

Lemma nsip_map_of_None ar k :
  (∀ rec, rec ∈ ar → (Rec.name rec, Rec.qtype rec) ≠ k) →
  nsip_map_of ar !! k = None.
Proof.
  intros Hno. destruct (nsip_map_of ar !! k) as [ip|] eqn:Hk; [|done].
  apply nsip_map_of_Some in Hk as (rec & Hin & Hkey & _).
  by destruct (Hno rec Hin).
Qed.

Lemma nsips_of_ext (m m' : gmap (value * Z) value) ns : ∀ nsips,
  (∀ host, m !! (host, types.A) = m' !! (host, types.A)) →
  nsips_of m ns nsips = nsips_of m' ns nsips.
Proof.
  induction ns as [|rec ns IH]; intros nsips Hm; simpl; [done|].
  destruct (ns_host rec) as [host|e]; [|done].
  rewrite <- Hm. destruct (m !! (host, types.A)); by apply IH.
Qed.

Lemma nsips_of_elem (m : gmap (value * Z) value) ns : ∀ acc nsips,
  nsips_of m ns acc = Val nsips →
  ∀ ip, ip ∈ nsips →
    ip ∈ acc ∨
    ∃ rec host, rec ∈ ns ∧ ns_host rec = Val host ∧
                m !! (host, types.A) = Some ip.
Proof.
  induction ns as [|rec ns IH]; intros acc nsips; simpl.
  { intros [= <-] ip Hip. by left. }
  destruct (ns_host rec) as [host|e] eqn:Hhost; [|done].
  destruct (m !! (host, types.A)) as [ip'|] eqn:Hm; intros Hn ip Hip.
  - destruct (IH _ _ Hn ip Hip) as [Hin|(rec' & host' & Hin & ? & ?)].
    + apply elem_of_app in Hin as [Hin|Hin%list_elem_of_singleton];
        [by left|right].
      subst. exists rec, host. split; [left|done].
    + right. exists rec', host'. split; [by right|done].
  - destruct (IH _ _ Hn ip Hip) as [Hin|(rec' & host' & Hin & ? & ?)];
      [by left|right].
    exists rec', host'. split; [by right|done].
Qed.

(** The authority records of a referral carry their host as [data]: the
    loop that collects the addresses does not fail on them. *)
Lemma nsips_of_referral (m : gmap (value * Z) value) ns : ∀ acc,
  existsb settles_query ns = false → ∃ nsips, nsips_of m ns acc = Val nsips.
Proof.
  induction ns as [|rec ns IH]; intros acc Hns; simpl; [by eexists|].
  simpl in Hns. apply orb_false_elim in Hns as [Hrec Hns].
  unfold Query.settles_query in Hrec.
  apply orb_false_elim in Hrec as [Hsoa _].
  unfold ns_host. rewrite Hsoa.
  destruct (m !! (Rec.data rec, types.A)); by apply IH.
Qed.

(** C9.  When [query_remote] descends a delegation (recursive resolver,
    [has_result] false, no CNAME in the answer, an authority record
    that is a referral), it returns the queried domain with
    [NameServers(nsips)], where [nsips] is collected from the
    additional section; that list is the same as if the additional
    section held its records of type A only, each of its members is the
    data of an additional record of type A named as the host of an
    authority record, and an authority record whose host has no
    additional record of type A (glue of type AAAA only, say) adds
    nothing to it. *)
Theorem query_remote_glue fuel domain nameservers s inter_res s1 :
  query_remote_once fuel domain nameservers s = Return (Some inter_res) s1 →
  recursive resolver = true →
  existsb answers_query (DNSMessage.an inter_res) = false →
  existsb settles_query (DNSMessage.ns inter_res) = false →
  cname_targets (DNSMessage.an inter_res) = [] →
  DNSMessage.ns inter_res ≠ [] →
  let ar := DNSMessage.ar inter_res in
  let ns := DNSMessage.ns inter_res in
  ∃ nsips,
    nsips_of (nsip_map_of ar) ns [] = Val nsips ∧
    query_remote fuel domain nameservers s =
      Return (Some (domain, Some (NameServers resolver nsips (world s1)).1))
        (record_call (NewNameServers nsips)
           (NameServers resolver nsips (world s1)).2
           (with_result (merged (_result s1) inter_res) s1)) ∧
    nsips_of (nsip_map_of (filter (λ rec, Rec.qtype rec = types.A) ar)) ns []
      = Val nsips ∧
    (∀ ip, ip ∈ nsips →
       ∃ glue rec, glue ∈ ar ∧ rec ∈ ns ∧
         Rec.qtype glue = types.A ∧ Rec.name glue = Rec.data rec ∧
         Rec.data glue = ip) ∧
    (∀ rec rest acc,
       (∀ glue, glue ∈ ar → Rec.name glue = Rec.data rec →
                Rec.qtype glue ≠ types.A) →
       settles_query rec = false →
       nsips_of (nsip_map_of ar) (rec :: rest) acc =
         nsips_of (nsip_map_of ar) rest acc).
Proof.
  intros Honce Hrec Han Hns Hcname Hne ar ns.
  destruct (nsips_of_referral (nsip_map_of ar) ns [] Hns) as [nsips Hnsips].
  assert (Hhost : ∀ rec, settles_query rec = false →
                         ns_host rec = Val (Rec.data rec)).
  { intros rec Hs. unfold Query.settles_query in Hs.
    apply orb_false_elim in Hs as [Hsoa _]. unfold ns_host. by rewrite Hsoa. }
  exists nsips. split; [done|]. split; [|split; [|split]].
  - rewrite (query_remote_classify _ _ _ _ _ _ Honce). simpl.
    rewrite Han, Hns, Hcname, Hrec. simpl. fold ar ns.
    assert (existsb (λ rec, negb (settles_query rec)) ns = true) as ->.
    { subst ns. destruct (DNSMessage.ns inter_res) as [|rec ns']; [done|].
      simpl in *. apply orb_false_elim in Hns as [Hr _]. by rewrite Hr. }
    simpl. by rewrite Hnsips.
  - rewrite <- Hnsips. symmetry. apply nsips_of_ext, nsip_map_of_A.
  - intros ip Hip.
    destruct (nsips_of_elem _ _ _ _ Hnsips ip Hip)
      as [Hin|(rec & host & Hin & Hh & Hm)]; [by apply elem_of_nil in Hin|].
    apply nsip_map_of_Some in Hm as (glue & Hg & Hkey & Hdata).
    assert (settles_query rec = false) as Hs.
    { rewrite <- not_true_iff_false. intros Hs.
      assert (existsb settles_query ns = true) as Hex;
        [|subst ns; by rewrite Hex in Hns].
      apply existsb_exists. exists rec. split; [|done].
      by apply list_elem_of_In. }
    rewrite (Hhost rec Hs) in Hh. simplify_eq.
    exists glue, rec. done.
  - intros rec rest acc Hnoglue Hs. simpl. rewrite (Hhost rec Hs).
    rewrite nsip_map_of_None; [done|].
    intros glue Hg [= Hname Hq]. by apply (Hnoglue glue).
Qed.

(** *** [query_cache] *)

Local Abbreviation query_cache := (Query.query_cache resolver qtype).
Local Abbreviation query_cache_scan :=
  (Query.query_cache_scan resolver qtype).

(** The loop over the cached records always comes to its end; it looks
    into the cache and touches the sections of the message only. *)
Lemma query_cache_scan_returns domain recs : ∀ cache_hit s,
  ∃ hit s', query_cache_scan domain recs cache_hit s = Return hit s' ∧
    from_cache s' = from_cache s ∧ future s' = future s ∧
    world s' = world s ∧
    DNSMessage.aa (_result s') = DNSMessage.aa (_result s) ∧
    DNSMessage.r (_result s') = DNSMessage.r (_result s) ∧
    ∃ evs, calls s' = calls s ++ evs ∧
           Forall (λ ev, leaves_cache ev = false) evs.
Proof.
  induction recs as [|rec rest IH]; intros cache_hit s; simpl.
  { exists cache_hit, s. repeat split; try done.
    exists []. by rewrite app_nil_r. }
  unfold mbind, mret, M_bind, M_ret, cache_query_, call, set_result_message.
  assert (Hrest : ∀ h s0 evs0,
    from_cache s0 = from_cache s → future s0 = future s →
    world s0 = world s →
    DNSMessage.aa (_result s0) = DNSMessage.aa (_result s) →
    DNSMessage.r (_result s0) = DNSMessage.r (_result s) →
    calls s0 = calls s ++ evs0 →
    Forall (λ ev, leaves_cache ev = false) evs0 →
    ∃ hit s', query_cache_scan domain rest h s0 = Return hit s' ∧
      from_cache s' = from_cache s ∧ future s' = future s ∧
      world s' = world s ∧
      DNSMessage.aa (_result s') = DNSMessage.aa (_result s) ∧
      DNSMessage.r (_result s') = DNSMessage.r (_result s) ∧
      ∃ evs, calls s' = calls s ++ evs ∧
             Forall (λ ev, leaves_cache ev = false) evs).
  { intros h s0 evs0 H1 H2 H3 H4 H5 H6 H7.
    destruct (IH h s0) as (hit & s' & Hret & ? & ? & ? & ? & ? & evs & Hev & ?).
    exists hit, s'. split; [done|]. repeat split; try congruence.
    exists (evs0 ++ evs). rewrite Hev, H6, <- app_assoc. split; [done|].
    by apply Forall_app. }
  destruct (Rec.qtype rec =? types.NS).
  - destruct (cache_query resolver (Rec.data rec) A_TYPES (world s))
      as [|g gs] eqn:Hglue; simpl;
      apply (Hrest _ _ [CacheQuery (Rec.data rec) A_TYPES]); try done;
      by constructor.
  - simpl. apply (Hrest _ _ []); try done. by rewrite app_nil_r.
Qed.

(** [query_cache] when the cache holds no CNAME record of the domain, by
    what the loop over the cached records returns. *)
Lemma query_cache_no_cname d s hit s2 :
  existsb (endswith d) (rootdomains resolver) = true →
  cache_query resolver (Str d) [types.CNAME] (world s) = [] →
  query_cache_scan (Str d)
    (cache_query resolver (Str d) [qtype] (world s)) false
    (record_call (CacheQuery (Str d) [qtype]) (world s)
       (record_call (CacheQuery (Str d) [types.CNAME]) (world s) s))
    = Return hit s2 →
  query_cache (Str d) s =
    Return true
      (with_result
         (DNSMessage.set_aa 1
            (if hit then _result s2
             else DNSMessage.set_r 3 (_result s2))) s2).
Proof.
  intros Hroot Hcname Hscan.
  unfold Query.query_cache, mbind, M_bind at 1, cache_query_ at 1, call.
  rewrite Hcname. unfold M_bind at 1, cache_query_, call. simpl.
  unfold M_bind at 1. rewrite Hscan.
  unfold M_bind at 1, under_rootdomains.
  destruct (rootdomains resolver) as [|root roots] eqn:Hroots; [done|].
  unfold mret, M_ret. rewrite Hroot.
  unfold M_bind, set_result_message. by destruct hit.
Qed.

(** C7.  For a domain that ends with one of the resolver's root domains,
    when the cache holds no CNAME record of it and the loop over the
    cached records ends with [cache_hit] false, [query_cache] sets the
    result code 3 and the flag [aa] on the accumulated message and
    returns true; the loop of [query] then stops at once, and since the
    start of the round only the cache has been looked into and the
    logger called: no nameserver and no other resolver call. *)
Theorem query_cache_name_error fuel d nameservers s s2 :
  future s ≠ Cancelled →
  existsb (endswith d) (rootdomains resolver) = true →
  cache_query resolver (Str d) [types.CNAME] (world s) = [] →
  query_cache_scan (Str d)
    (cache_query resolver (Str d) [qtype] (world s)) false
    (record_call (CacheQuery (Str d) [qtype]) (world s)
       (record_call (CacheQuery (Str d) [types.CNAME]) (world s) s))
    = Return false s2 →
  let s3 :=
    with_result (DNSMessage.set_aa 1 (DNSMessage.set_r 3 (_result s2))) s2 in
  let s4 := logged "[query_cache][%s][%s] %s" (with_from_cache true s3) in
  query_cache (Str d) s = Return true s3 ∧
  DNSMessage.r (_result s3) = 3 ∧ DNSMessage.aa (_result s3) = 1 ∧
  query_loop (S fuel) (Str d) nameservers s = Return tt s4 ∧
  ∃ evs, calls s4 = calls s ++ evs ∧
         Forall (λ ev, leaves_cache ev = false) evs.
Proof.
  intros Hc Hroot Hcname Hscan s3 s4.
  pose proof (query_cache_no_cname d s false s2 Hroot Hcname Hscan) as Hqc.
  fold s3 in Hqc. split; [done|]. split; [done|]. split; [done|]. split.
  - rewrite query_loop_round by done. by rewrite Hqc.
  - destruct (query_cache_scan_returns (Str d)
                (cache_query resolver (Str d) [qtype] (world s)) false
                (record_call (CacheQuery (Str d) [qtype]) (world s)
                   (record_call (CacheQuery (Str d) [types.CNAME])
                      (world s) s)))
      as (hit & s' & Hret & _ & _ & _ & _ & _ & evs & Hev & Hq).
    rewrite Hscan in Hret. simplify_eq. simpl in *.
    exists ([CacheQuery (Str d) [types.CNAME]; CacheQuery (Str d) [qtype]]
            ++ evs ++ [Debug "[query_cache][%s][%s] %s"]).
    rewrite Hev. rewrite <- !app_assoc. split; [done|].
    simpl. repeat (apply Forall_cons; split; [done|]).
    apply Forall_app. split; [done|]. by repeat constructor.
Qed.

(** The look-ups of the CNAME targets leave the flag [aa] as it is. *)
Lemma query_cache_targets_aa v cname :
  preserves (λ s : State W, DNSMessage.aa (_result s) = v)
            (query_cache_targets resolver qtype cname).
Proof.
  induction cname as [|rec rest IH]; simpl.
  { apply preserves_ret. }
  apply preserves_bind.
  - intros s s' HP. unfold await.
    destruct (resolver_query _ _ _ _) as [[x c] w].
    destruct x; intros [= <-]; done.
  - intros inter_res. apply preserves_bind; [|intros _; exact IH].
    destruct inter_res as [inter_res|]; [|apply preserves_ret].
    destruct (0 <? _); [apply preserves_ret|].
    intros s s' HP [= <-]. done.
Qed.

(** C10 (as amended).  For a domain that ends with one of the resolver's
    root domains: when the cache holds no CNAME record of it,
    [query_cache] returns true with the flag [aa] set to 1, whether the
    loop over the cached records found a hit (the result code is then
    left as it was) or not (the result code is then 3); when the cache
    holds CNAME records of it, [query_cache] ends in the CNAME branch,
    where [aa] is set to 1 if every one of these records has a negative
    ttl and is left as it was otherwise. *)
Theorem query_cache_authoritative d s :
  existsb (endswith d) (rootdomains resolver) = true →
  (cache_query resolver (Str d) [types.CNAME] (world s) = [] →
     ∃ hit s', query_cache (Str d) s = Return true s' ∧
       DNSMessage.aa (_result s') = 1 ∧
       DNSMessage.r (_result s') =
         (if hit : bool then DNSMessage.r (_result s) else 3)) ∧
  (cache_query resolver (Str d) [types.CNAME] (world s) ≠ [] →
     ∀ s', final_state (query_cache (Str d) s) = Some s' →
       DNSMessage.aa (_result s') =
         if forallb (λ rec, Rec.ttl rec <? 0)
              (cache_query resolver (Str d) [types.CNAME] (world s))
         then 1 else DNSMessage.aa (_result s)).
Proof.
  intros Hroot. split.
  - intros Hcname.
    destruct (query_cache_scan_returns (Str d)
                (cache_query resolver (Str d) [qtype] (world s)) false
                (record_call (CacheQuery (Str d) [qtype]) (world s)
                   (record_call (CacheQuery (Str d) [types.CNAME])
                      (world s) s)))
      as (hit & s2 & Hret & _ & _ & _ & _ & Hr & _).
    exists hit. eexists.
    split; [by apply (query_cache_no_cname d s hit s2)|].
    split; [done|]. simpl. by destruct hit.
  - intros Hcname s'.
    unfold Query.query_cache, mbind, M_bind at 1, cache_query_ at 1, call.
    destruct (cache_query resolver (Str d) [types.CNAME] (world s))
      as [|rec cname] eqn:Hq; [done|].
    unfold M_bind at 1, set_result_message at 1. unfold M_bind at 1.
    set (v := if forallb _ _ then 1 else _).
    match goal with
    | |- final_state (match ?m ?s0 with _ => _ end) = _ → _ =>
        assert (Hm : ∃ s1, m s0 = Return tt s1 ∧
                           DNSMessage.aa (_result s1) = v)
    end.
    { subst v. destruct (forallb _ _); eexists; split; reflexivity. }
    destruct Hm as (s1 & -> & Hv).
    destruct (qtype =? types.CNAME); [by intros [= <-]|].
    intros Hfin.
    apply (preserves_bind (λ s, DNSMessage.aa (_result s) = v) _ _
             (query_cache_targets_aa v _) (λ _, preserves_ret _ _)
             s1 s' Hv Hfin).
Qed.

(** *** More fuel does not change an outcome *)


Lemma request_remote_cancelled fuel nameservers req e s :
  future s = Cancelled →
  request_remote (S fuel) nameservers req e s = Return None s.
Proof.
  intros Hc. simpl. unfold mbind, M_bind, cancelled. by rewrite Hc.
Qed.





(** C2.  When the future has been cancelled, a round of the loop of
    [Query.query] issues no query and leaves the future and everything else
    as it is, but the loop does not stop: both guarded blocks are skipped
    and [while True] goes round again in the same state, so that neither
    the loop nor [query] comes to an end, whatever the number of rounds
    allowed. *)
Theorem query_cancelled_spins fuel domain nameservers result hit log (w : W) :
  let s := {| _result := result; from_cache := hit; future := Cancelled;
              calls := log; world := w |} in
  query_loop (S fuel) domain nameservers s = query_loop fuel domain nameservers s ∧
  query_loop fuel domain nameservers s = OutOfFuel ∧
  query fuel s = OutOfFuel.
Proof.
  intros s. split; [done|]. split.
  - by apply query_loop_cancelled.
  - unfold Query.query, try_except_else.
    by rewrite query_loop_cancelled.
Qed.

End Facts.

Import Example.

(** The first server does not answer in time, the second one answers. *)
Lemma request_remote_failover_witness :
  let R := example_resolver true [] in
  let req := request_for "www.example.com" types.A in
  let s := start true "www.example.com" types.A
             (on_network [(Exc TimeoutError, false); (Val [Byte.x01], false)]) in
  future s ≠ Cancelled ∧
  (∃ s2, request_remote R 2 [server1; server2] req None s =
         request_remote R 1 [server1; server2] req None
           (marked_failed R [server1; server2] server1 s2)) ∧
  ∃ s', request_remote R 2 [server1; server2] req None s =
          Return (Some answer) s' ∧
        failed (world s') = [server1].
Proof.
  intros R req s. split; [done|]. split.
  - eexists.
    apply (proj1 (proj2 (request_remote_failover R 1 [server1; server2] req
                           None s ltac:(done))) server1 (world s));
      reflexivity.
  - eexists. split; reflexivity.
Defined.

(** C3 as stated fails on a response to another question: [fail(addr)] is
    not called, the second server is not tried, and the caller receives an
    exception that is not the one of an exhausted set. *)
Lemma request_remote_mismatch_surfaces :
  let R := example_resolver true [] in
  let req := request_for "www.example.com" types.A in
  let s := start true "www.example.com" types.A
             (on_network [(Val [Byte.x03], false); (Val [Byte.x01], false)]) in
  ∃ s', request_remote R 5 [server1; server2] req None s =
          Raise (UnboundLocalError "e") s' ∧
        calls s' = [Get; Request UDP req server1; Debug "[request_remote] %s"] ∧
        failed (world s') = [] ∧
        ns_get R [server1; server2] (world s') = (Some server1, world s').
Proof. eexists. repeat split. Qed.


(** A name under the local root domain "corp" that the cache does not
    know. *)
Lemma query_cache_name_error_witness :
  let R := example_resolver true ["corp"%string] in
  let s := start true "printer.corp" types.A quiet in
  future s ≠ Cancelled ∧
  existsb (endswith "printer.corp") (rootdomains R) = true ∧
  ∃ s4, query_loop R types.A 1 (Str "printer.corp") None s = Return tt s4 ∧
        DNSMessage.r (_result s4) = 3 ∧ DNSMessage.aa (_result s4) = 1 ∧
        from_cache s4 = true ∧
        calls s4 = [CacheQuery (Str "printer.corp") [types.CNAME];
                    CacheQuery (Str "printer.corp") [types.A];
                    Debug "[query_cache][%s][%s] %s"].
Proof.
  intros R s. split; [done|]. split; [done|].
  edestruct (query_cache_name_error R types.A 0 "printer.corp" None s)
    as (_ & _ & _ & Hloop & _); [done|reflexivity|reflexivity|reflexivity|].
  eexists. split; [exact Hloop|]. repeat split.
Defined.

(** A cached address record of a name under the local root domain: a
    genuine hit, marked authoritative. *)
Lemma query_cache_authoritative_witness :
  let R := example_resolver true ["corp"%string] in
  let db := [Rec.mk (Str "printer.corp") types.A (Str "192.0.2.30") 60] in
  let s := start true "printer.corp" types.A (with_cache db) in
  existsb (endswith "printer.corp") (rootdomains R) = true ∧
  (∃ hit s', query_cache R types.A (Str "printer.corp") s = Return true s' ∧
             DNSMessage.aa (_result s') = 1 ∧
             DNSMessage.r (_result s') =
               (if hit : bool then DNSMessage.r (_result s) else 3)) ∧
  ∃ s', query_cache R types.A (Str "printer.corp") s = Return true s' ∧
        DNSMessage.r (_result s') = 0 ∧
        DNSMessage.an (_result s') = db.
Proof.
  intros R db s. split; [done|]. split.
  - apply (proj1 (query_cache_authoritative R types.A "printer.corp" s
                    eq_refl)). reflexivity.
  - eexists. repeat split.
Defined.

(** C10 as stated fails on a domain under a root domain of which the cache
    holds a CNAME record with a positive ttl: the query for that CNAME is
    answered from the cache, and [aa] stays 0. *)
Lemma query_cache_cname_hit_not_authoritative :
  let R := example_resolver true ["corp"%string] in
  let db := [Rec.mk (Str "www.corp") types.CNAME (Str "host.example.net") 300] in
  let s := start true "www.corp" types.CNAME (with_cache db) in
  existsb (endswith "www.corp") (rootdomains R) = true ∧
  ∃ s', query_cache R types.CNAME (Str "www.corp") s = Return true s' ∧
        DNSMessage.an (_result s') = db ∧
        DNSMessage.aa (_result s') = 0.
Proof. split; [done|]. eexists. repeat split. Qed.

(** A response that only carries aliases of the queried name. *)
Lemma query_remote_follows_cname_witness :
  let R := example_resolver true [] in
  let s := start true "www.example.com" types.A
             (on_network [(Val [Byte.x04], false)]) in
  existsb (answers_query types.A) (DNSMessage.an alias) = false ∧
  head (cname_targets (DNSMessage.an alias)) = Some (Str "host.example.net") ∧
  ∃ s2, query_remote R types.A 3 (Str "www.example.com") None s =
          Return (Some (Str "host.example.net", None)) s2 ∧
        DNSMessage.an (_result s2) = DNSMessage.an alias.
Proof.
  intros R s. split; [done|]. split; [done|].
  edestruct (query_remote_follows_cname R types.A 3 (Str "www.example.com")
               None s alias) as (Hremote & _);
    [lazy; reflexivity|reflexivity|reflexivity|reflexivity|].
  eexists. split; [exact Hremote|reflexivity].
Defined.

(** A referral to two nameservers, of which the first has glue of type
    AAAA only: the next nameserver set holds the address of the second. *)
Lemma query_remote_glue_witness :
  let R := example_resolver true [] in
  let s := start true "www.example.com" types.A
             (on_network [(Val [Byte.x05], false)]) in
  ∃ s2, query_remote R types.A 3 (Str "www.example.com") None s =
          Return (Some (Str "www.example.com", Some [server2])) s2 ∧
        calls s2 ≠ [] ∧
        last (calls s2) = Some (NewNameServers [Str "192.0.2.2"]).
Proof.
  intros R s.
  edestruct (query_remote_glue R types.A 3 (Str "www.example.com") None s
               referral) as (nsips & Hnsips & Hremote & _);
    [lazy; reflexivity|reflexivity|reflexivity|reflexivity|reflexivity|done|].
  assert (nsips = [Str "192.0.2.2"]) as ->.
  { vm_compute in Hnsips. by injection Hnsips. }
  eexists. split; [exact Hremote|]. split; [done|reflexivity].
Defined.

(** A malformed response from the first of two servers. *)
Lemma request_remote_dns_error_witness :
  let R := example_resolver true [] in
  let req := request_for "www.example.com" types.A in
  let s := start true "www.example.com" types.A
             (on_network [(Val [Byte.x00], false); (Val [Byte.x01], false)]) in
  ∃ s2, request_remote R 5 [server1; server2] req None s =
          Raise (UnboundLocalError "e") s2 ∧
        calls s2 = [Get; Request UDP req server1].
Proof.
  intros R req s. eexists. split.
  - apply (request_remote_dns_error R 4 [server1; server2] req s server1
             (world s) 1 "Format error"); [done|reflexivity|reflexivity].
  - reflexivity.
Defined.
End QueryFacts.

(** ** Further properties of [Query] *)

Module QueryMore.
Import Query QueryFacts.

Section More.
Context {W NS : Type}.
Context (resolver : Resolver W NS) (fqdn : string) (qtype : Z).

Local Abbreviation request_remote := (Query.request_remote resolver).
Local Abbreviation request_remote_try := (Query.request_remote_try resolver).
Local Abbreviation request_once := (Query.request_once resolver).
Local Abbreviation query_remote := (Query.query_remote resolver qtype).
Local Abbreviation query_remote_once := (Query.query_remote_once resolver qtype).
Local Abbreviation query_cache := (Query.query_cache resolver qtype).
Local Abbreviation query_cache_scan := (Query.query_cache_scan resolver qtype).
Local Abbreviation query_loop := (Query.query_loop resolver qtype).
Local Abbreviation query := (Query.query resolver fqdn qtype).

(** Membership in a list that is written out. *)
Ltac split_in H :=
  repeat first
    [ apply elem_of_nil in H; destruct H
    | apply elem_of_cons in H as [H|H]; [try discriminate H|]
    | apply elem_of_app in H as [H|H] ];
  try discriminate H.

Ltac show_in :=
  rewrite ?elem_of_app, ?elem_of_cons; eauto 12.

(** *** [request_remote] *)

(** The [try] body: what it logs and what it leaves alone. *)
Lemma request_remote_try_frame req addr s1 s2 :
  final_state (request_remote_try req addr s1) = Some s2 →
  _result s2 = _result s1 ∧ from_cache s2 = from_cache s1 ∧
  ∃ p, calls s2 = calls s1 ++ [Request p req addr] ∨
       calls s2 = calls s1 ++ [Request p req addr; Debug "[request_remote] %s"].
Proof.
  unfold Query.request_remote_try, Query.request_once, mbind, M_bind, lift,
         debug, Query.first, raise, mret, M_ret, await, logged, record_call.
  destruct (protocol resolver);
    [destruct (tcp_request _ _ _ _ _) as [[[data|e] c] w]
    |destruct (udp_request _ _ _ _ _) as [[[data|e] c] w]]; simpl.
  all: try (intros [= <-]; simpl; eauto 10).
  all: destruct (parse resolver data) as [inter_res|e]; simpl;
    [|intros [= <-]; simpl; eauto 10].
  all: destruct (DNSMessage.qd inter_res) as [|q l]; simpl;
    [intros [= <-]; simpl; rewrite <- app_assoc; eauto 10|].
  all: destruct (DNSMessage.qd req) as [|q' l']; simpl;
    [intros [= <-]; simpl; rewrite <- app_assoc; eauto 10|].
  all: case_bool_decide;
    [intros [= <-]; simpl; rewrite <- app_assoc; eauto 10|].
  all: destruct (_ =? 2); intros [= <-]; simpl; rewrite <- app_assoc; eauto 10.
Qed.

(** The outcome of one round in which the future is not cancelled and the
    set has an address: the frame of the [try] body and, when a response is
    returned, its validation. *)
Lemma request_remote_try_validated req addr s1 inter_res s2 :
  request_remote_try req addr s1 = Return inter_res s2 →
  validated req inter_res.
Proof.
  unfold Query.request_remote_try, mbind, M_bind, lift, debug, Query.first,
         raise, mret, M_ret.
  destruct (Query.request_once resolver req addr None s1) as [data s'|e s'|];
    [|done|done].
  destruct (parse resolver data) as [m|e]; [|done].
  destruct (DNSMessage.qd m) as [|q l] eqn:Hq; [done|].
  destruct (DNSMessage.qd req) as [|q' l'] eqn:Hq'; [done|].
  case_bool_decide as Hname; [done|].
  destruct (DNSMessage.r m =? 2) eqn:Hr; [done|].
  intros [= <- <-]. exists q, q'. rewrite Hq, Hq'.
  split; [done|]. split; [done|]. split; [done|]. by apply Z.eqb_neq.
Qed.

(** The loop returns from its [else] branch or by leaving the [while]. *)
Lemma request_remote_checked fuel : ∀ nameservers req e s x s',
  request_remote fuel nameservers req e s = Return x s' →
  match x with
  | Some inter_res => validated req inter_res
  | None => future s' = Cancelled
  end.
Proof.
  induction fuel as [|fuel IH]; intros nameservers req e s x s' H; [done|].
  destruct (decide (future s = Cancelled)) as [Hc|Hc].
  { rewrite request_remote_cancelled in H by done. by simplify_eq. }
  destruct (ns_get resolver nameservers (world s)) as [[addr|] w1] eqn:Hget.
  - rewrite (request_remote_round resolver fuel nameservers req e s addr w1)
      in H by done.
    destruct (request_remote_try req addr (record_call Get w1 s))
      as [inter_res s2|exc s2|] eqn:Htry; try done.
    + simplify_eq. by eapply request_remote_try_validated.
    + destruct exc; try done; try (by eapply IH).
      destruct e; [by eapply IH|done].
  - by rewrite (request_remote_exhausted resolver fuel nameservers req e s w1)
      in H.
Qed.

(** The loop keeps the accumulated message and [from_cache]. *)
Lemma request_remote_keeps_result fuel : ∀ nameservers req e s s',
  final_state (request_remote fuel nameservers req e s) = Some s' →
  _result s' = _result s ∧ from_cache s' = from_cache s.
Proof.
  induction fuel as [|fuel IH]; intros nameservers req e s s' H; [done|].
  destruct (decide (future s = Cancelled)) as [Hc|Hc].
  { rewrite request_remote_cancelled in H by done. by simplify_eq/=. }
  destruct (ns_get resolver nameservers (world s)) as [[addr|] w1] eqn:Hget.
  2: { rewrite (request_remote_exhausted resolver fuel nameservers req e s w1)
         in H by done.
       by simplify_eq/=. }
  rewrite (request_remote_round resolver fuel nameservers req e s addr w1)
    in H by done.
  destruct (request_remote_try req addr (record_call Get w1 s))
    as [inter_res s2|exc s2|] eqn:Htry; [| |done].
  all: destruct (request_remote_try_frame req addr (record_call Get w1 s) s2)
      as (Hr & Hf & _); [by rewrite Htry|];
    simpl in Hr, Hf.
  { by simplify_eq/=. }
  destruct exc; try (by simplify_eq/=).
  - destruct (IH _ _ _ _ _ H) as [Hr' Hf']. simpl in Hr', Hf'.
    split; congruence.
  - destruct (IH _ _ _ _ _ H) as [Hr' Hf']. simpl in Hr', Hf'.
    split; congruence.
  - destruct e as [x|]; [|by simplify_eq/=].
    destruct (IH _ _ _ _ _ H) as [Hr' Hf']. simpl in Hr', Hf'.
    split; congruence.
Qed.

(** X1.  What [request_remote] hands back is a response that has passed the
    checks of lines 154-156 (its question names what the request asked
    for, its result code is not 2), or nothing, and nothing only when the
    future is cancelled.  A response is handed back only if the future
    was not cancelled when the loop was entered; if it was, nothing is
    returned without any call. *)
Theorem request_remote_returns fuel nameservers req e s x s' :
  request_remote fuel nameservers req e s = Return x s' →
  match x with
  | Some inter_res => validated req inter_res ∧ future s ≠ Cancelled
  | None => future s' = Cancelled
  end ∧
  (future s = Cancelled → x = None ∧ s' = s).
Proof.
  intros H. pose proof (request_remote_checked _ _ _ _ _ _ _ H) as Hx.
  assert (Hentry : future s = Cancelled → x = None ∧ s' = s).
  { intros Hc. destruct fuel as [|fuel]; [done|].
    rewrite request_remote_cancelled in H by done. by simplify_eq. }
  split; [|exact Hentry].
  destruct x as [inter_res|]; [|done].
  split; [done|]. intros Hc. by destruct (Hentry Hc).
Qed.

(** X2.  [request_remote] leaves the accumulated message and [from_cache] as
    they are, and marks no address as failed to which it has not sent the
    request before. *)
Theorem request_remote_frame fuel : ∀ nameservers req e s s',
  final_state (request_remote fuel nameservers req e s) = Some s' →
  _result s' = _result s ∧ from_cache s' = from_cache s ∧
  ∃ evs, calls s' = calls s ++ evs ∧
         ∀ addr, Fail addr ∈ evs → ∃ p, Request p req addr ∈ evs.
Proof.
  induction fuel as [|fuel IH]; intros nameservers req e s s' H; [done|].
  destruct (decide (future s = Cancelled)) as [Hc|Hc].
  { rewrite request_remote_cancelled in H by done. simplify_eq/=.
    repeat split. exists []. split; [by rewrite app_nil_r|].
    intros addr Hin. by apply elem_of_nil in Hin. }
  destruct (ns_get resolver nameservers (world s)) as [[addr|] w1] eqn:Hget.
  2: { rewrite (request_remote_exhausted resolver fuel nameservers req e s w1)
         in H by done.
       simplify_eq/=. repeat split. exists [Get]. split; [done|].
       intros addr Hin. split_in Hin. }
  rewrite (request_remote_round resolver fuel nameservers req e s addr w1)
    in H by done.
  destruct (request_remote_try req addr (record_call Get w1 s))
    as [inter_res s2|exc s2|] eqn:Htry; [| |done].
  all: destruct (request_remote_try_frame req addr (record_call Get w1 s) s2)
      as (Hr & Hf & p & Hcalls); [by rewrite Htry|];
    simpl in Hr, Hf, Hcalls.
  all: assert (Hstop : s' = s2 →
      _result s' = _result s ∧ from_cache s' = from_cache s ∧
      ∃ evs, calls s' = calls s ++ evs ∧
             ∀ addr, Fail addr ∈ evs → ∃ p, Request p req addr ∈ evs);
    [ intros ->; split; [done|]; split; [done|];
      destruct Hcalls as [Hcalls|Hcalls]; rewrite Hcalls, <- app_assoc;
        eexists; (split; [done|]); intros a Hin; split_in Hin | ].
  { apply Hstop. by simplify_eq/=. }
  assert (Hgo : ∀ e0 s3 tail,
    calls s3 = calls s2 ++ tail →
    _result s3 = _result s2 → from_cache s3 = from_cache s2 →
    (∀ a, Fail a ∈ tail → a = addr) →
    final_state (request_remote fuel nameservers req e0 s3) = Some s' →
    _result s' = _result s ∧ from_cache s' = from_cache s ∧
    ∃ evs, calls s' = calls s ++ evs ∧
           ∀ addr, Fail addr ∈ evs → ∃ p, Request p req addr ∈ evs).
  { intros e0 s3 tail Ht Hr3 Hf3 Htail H'.
    destruct (IH _ _ _ _ _ H') as (Hr' & Hf' & evs & Hev & Hreq).
    split; [congruence|]. split; [congruence|].
    assert (Hmid : ∃ mid, calls s2 = calls s ++ mid ∧
                          Request p req addr ∈ mid ∧ ∀ a, Fail a ∉ mid).
    { destruct Hcalls as [Hcalls|Hcalls]; rewrite Hcalls, <- app_assoc;
        eexists; (split; [done|]); (split; [show_in|]);
        intros a Hin; split_in Hin. }
    destruct Hmid as (mid & Hmid & Hp & Hnofail).
    exists (mid ++ tail ++ evs). split.
    { by rewrite Hev, Ht, Hmid, <- !app_assoc. }
    intros a Hin.
    apply elem_of_app in Hin as [Hin|Hin]; [by destruct (Hnofail a)|].
    apply elem_of_app in Hin as [Hin|Hin].
    - rewrite (Htail a Hin). exists p. show_in.
    - destruct (Hreq a Hin) as [p' Hp']. exists p'. show_in. }
  destruct exc; try (by apply Hstop; simplify_eq/=).
  - apply (Hgo None (Query.marked_failed resolver nameservers addr s2)
               [Debug "[request_remote][server_error] %s"; Fail addr]);
      try done.
    + simpl. by rewrite <- app_assoc.
    + intros a Hin. split_in Hin. by simplify_eq.
  - apply (Hgo None (Query.marked_failed resolver nameservers addr s2)
               [Debug "[request_remote][server_error] %s"; Fail addr]);
      try done.
    + simpl. by rewrite <- app_assoc.
    + intros a Hin. split_in Hin. by simplify_eq.
  - destruct e as [x|]; [|by apply Hstop; simplify_eq/=].
    apply (Hgo (Some x) (logged "[request_remote][dns_error] %s" s2)
               [Debug "[request_remote][dns_error] %s"]);
      try done.
    intros a Hin. split_in Hin.
Qed.

(** *** [query_remote_once] *)

(** X3.  Whatever [query_remote_once] returns has been handed to
    [resolver.cache_message] as the last thing it did; it is a response
    that has passed the checks of [request_remote] against the request for
    [domain] and the queried type, or nothing when the future is
    cancelled; the accumulated message and [from_cache] are left alone. *)
Theorem query_remote_once_returns fuel domain nameservers s x s' :
  query_remote_once fuel domain nameservers s = Return x s' →
  last (calls s') = Some (CacheMessage x) ∧
  match x with
  | Some inter_res => validated (request_for qtype domain) inter_res
  | None => future s' = Cancelled
  end ∧
  _result s' = _result s ∧ from_cache s' = from_cache s.
Proof.
  unfold Query.query_remote_once.
  assert (Hrest : ∀ ns0 s0,
    _result s0 = _result s → from_cache s0 = from_cache s →
    (debug "[query_remote][%s][%s] %s" ≫= λ _,
     request_remote fuel ns0 (request_for qtype domain) None ≫= λ inter_res,
     call (CacheMessage inter_res) (cache_message resolver inter_res) ≫= λ y,
     lift y ≫= λ _, mret inter_res) s0 = Return x s' →
    last (calls s') = Some (CacheMessage x) ∧
    match x with
    | Some inter_res => validated (request_for qtype domain) inter_res
    | None => future s' = Cancelled
    end ∧
    _result s' = _result s ∧ from_cache s' = from_cache s).
  { intros ns0 s0 Hr0 Hf0. unfold mbind, M_bind at 1 2, debug.
    destruct (request_remote fuel ns0 _ None _) as [y s1|?|] eqn:Hreq;
      [|done|done].
    pose proof (request_remote_checked _ _ _ _ _ _ _ Hreq) as Hy.
    destruct (request_remote_keeps_result fuel ns0 (request_for qtype domain)
                None (logged "[query_remote][%s][%s] %s" s0) s1)
      as (Hr1 & Hf1); [by rewrite Hreq|]. simpl in Hr1, Hf1.
    unfold M_bind, call, lift, mret, M_ret.
    destruct (cache_message resolver y (world s1)) as [[[]|?] w]; [|done].
    intros [= <- <-]. simpl. rewrite last_snoc.
    split; [done|]. split; [|split; congruence].
    by destruct y. }
  unfold mbind at 1, M_bind at 1.
  destruct nameservers as [ns0|].
  - by apply Hrest.
  - unfold call. destruct (get_nameservers resolver domain (world s)).
    by apply Hrest.
Qed.

(** *** [query_remote]: the ways it ends *)

Lemma merged_sections result inter_res :
  DNSMessage.an (Query.merged resolver result inter_res)
    = DNSMessage.an result ++ DNSMessage.an inter_res ∧
  DNSMessage.ns (Query.merged resolver result inter_res)
    = (if recursive resolver then DNSMessage.ns result
       else DNSMessage.ns result ++ DNSMessage.ns inter_res) ∧
  DNSMessage.ar (Query.merged resolver result inter_res)
    = (if recursive resolver then DNSMessage.ar result
       else DNSMessage.ar result ++ DNSMessage.ar inter_res) ∧
  DNSMessage.r (Query.merged resolver result inter_res) = DNSMessage.r result ∧
  DNSMessage.aa (Query.merged resolver result inter_res) = DNSMessage.aa result.
Proof. unfold Query.merged. by destruct (recursive resolver). Qed.

(** [query_remote_once] keeps the accumulated message. *)
Lemma query_remote_once_keeps_result fuel domain nameservers s s' :
  final_state (query_remote_once fuel domain nameservers s) = Some s' →
  _result s' = _result s.
Proof.
  intros H.
  assert (Hkeep : preserves (λ s0 : State W, _result s0 = _result s)
                    (query_remote_once fuel domain nameservers)).
  { unfold Query.query_remote_once.
    apply preserves_bind.
    { destruct nameservers; [apply preserves_ret|].
      intros s0 s1 HP. unfold call.
      destruct (get_nameservers resolver domain (world s0)).
      by intros [= <-]. }
    intros ns0. apply preserves_bind; [by intros s0 s1 HP [= <-]|]. intros _.
    apply preserves_bind.
    { intros s0 s1 HP H1.
      destruct (request_remote_keeps_result _ _ _ _ _ _ H1) as [Hr _].
      congruence. }
    intros inter_res. apply preserves_bind.
    { intros s0 s1 HP. unfold call.
      destruct (cache_message resolver inter_res (world s0)).
      by intros [= <-]. }
    intros y. apply preserves_bind; [apply preserves_lift|].
    intros _. apply preserves_ret. }
  by apply (Hkeep s s').
Qed.

(** When [query_remote_once] returns nothing, reading the answer section
    of the missing response raises [AttributeError]. *)
Lemma query_remote_without_response fuel domain nameservers s s1 :
  query_remote_once fuel domain nameservers s = Return None s1 →
  query_remote fuel domain nameservers s = Raise AttributeError s1.
Proof.
  intros Honce. unfold Query.query_remote, mbind, M_bind. by rewrite Honce.
Qed.

(** [query_remote] returns only after [query_remote_once] has returned a
    response. *)
Lemma query_remote_has_response fuel domain nameservers s x s' :
  query_remote fuel domain nameservers s = Return x s' →
  ∃ inter_res s1,
    query_remote_once fuel domain nameservers s = Return (Some inter_res) s1.
Proof.
  intros H.
  destruct (query_remote_once fuel domain nameservers s)
    as [[inter_res|] s1|e s1|] eqn:Honce.
  - by exists inter_res, s1.
  - by rewrite (query_remote_without_response _ _ _ _ _ Honce) in H.
  - unfold Query.query_remote, mbind, M_bind in H. by rewrite Honce in H.
  - unfold Query.query_remote, mbind, M_bind in H. by rewrite Honce in H.
Qed.

(** X4.  Every return of [query_remote] has appended the answer section of the
    response to that of the accumulated message; the authority and the
    additional section are appended by a resolver that is not recursive
    and left as they are by a recursive one. *)
Theorem query_remote_sections fuel domain nameservers s x s' :
  query_remote fuel domain nameservers s = Return x s' →
  ∃ inter_res s1,
    query_remote_once fuel domain nameservers s = Return (Some inter_res) s1 ∧
    DNSMessage.an (_result s')
      = DNSMessage.an (_result s) ++ DNSMessage.an inter_res ∧
    DNSMessage.ns (_result s')
      = (if recursive resolver then DNSMessage.ns (_result s)
         else DNSMessage.ns (_result s) ++ DNSMessage.ns inter_res) ∧
    DNSMessage.ar (_result s')
      = (if recursive resolver then DNSMessage.ar (_result s)
         else DNSMessage.ar (_result s) ++ DNSMessage.ar inter_res).
Proof.
  intros H.
  destruct (query_remote_has_response _ _ _ _ _ _ H)
    as (inter_res & s1 & Honce).
  exists inter_res, s1. split; [done|].
  assert (Hres : _result s1 = _result s).
  { apply (query_remote_once_keeps_result fuel domain nameservers).
    by rewrite Honce. }
  destruct (merged_sections (_result s1) inter_res)
    as (Han & Hns & Har & _ & _).
  rewrite <- Hres.
  rewrite (query_remote_classify resolver qtype _ _ _ _ _ _ Honce) in H.
  cbv zeta in H.
  destruct (existsb _ _ || existsb _ _); [by simplify_eq/=|].
  destruct (cname_targets _); [|by simplify_eq/=].
  destruct (negb (recursive resolver)); [by simplify_eq/=|].
  destruct (negb (existsb _ _)); [by simplify_eq/=|].
  destruct (nsips_of _ _ _); by simplify_eq/=.
Qed.

(** X5.  When a record of the response satisfies the query, [query_remote] ends
    the resolution and leaves the result code of the accumulated message
    as it was: the result code of the response is not taken over. *)
Theorem query_remote_answered fuel domain nameservers s inter_res s1 :
  query_remote_once fuel domain nameservers s = Return (Some inter_res) s1 →
  existsb (answers_query qtype) (DNSMessage.an inter_res)
    || existsb (settles_query qtype) (DNSMessage.ns inter_res) = true →
  ∃ s', query_remote fuel domain nameservers s = Return None s' ∧
        DNSMessage.r (_result s') = DNSMessage.r (_result s) ∧
        DNSMessage.aa (_result s') = DNSMessage.aa (_result s) ∧
        calls s' = calls s1 ∧ world s' = world s1.
Proof.
  intros Honce Hhr.
  assert (Hres : _result s1 = _result s).
  { apply (query_remote_once_keeps_result fuel domain nameservers).
    by rewrite Honce. }
  rewrite (query_remote_classify resolver qtype _ _ _ _ _ _ Honce).
  cbv zeta. rewrite Hhr. eexists. split; [done|]. simpl.
  destruct (merged_sections (_result s1) inter_res) as (_ & _ & _ & -> & ->).
  by rewrite Hres.
Qed.

(** X6.  A resolver that is not recursive never descends a delegation:
    [query_remote] ends the resolution or follows a CNAME, builds no
    nameserver set, and, when nothing in the response satisfied the query
    and there is no CNAME to follow, takes over the result code of the
    response. *)
Theorem query_remote_iterative fuel domain nameservers s x s' :
  recursive resolver = false →
  query_remote fuel domain nameservers s = Return x s' →
  ∃ inter_res s1,
    query_remote_once fuel domain nameservers s = Return (Some inter_res) s1 ∧
    calls s' = calls s1 ∧
    match x with
    | Some (target, nameservers') =>
        nameservers' = None ∧
        head (cname_targets (DNSMessage.an inter_res)) = Some target
    | None =>
        existsb (answers_query qtype) (DNSMessage.an inter_res)
          || existsb (settles_query qtype) (DNSMessage.ns inter_res) = true ∨
        DNSMessage.r (_result s') = DNSMessage.r inter_res
    end.
Proof.
  intros Hrec H.
  destruct (query_remote_has_response _ _ _ _ _ _ H)
    as (inter_res & s1 & Honce).
  exists inter_res, s1. split; [done|].
  rewrite (query_remote_classify resolver qtype _ _ _ _ _ _ Honce) in H.
  cbv zeta in H. rewrite Hrec in H.
  destruct (existsb _ _ || existsb _ _); [simplify_eq/=; auto|].
  destruct (cname_targets _); simplify_eq/=; auto.
Qed.

(** X7.  A recursive resolver that receives a response without any answer and
    without any authority record ends the resolution with result code 2. *)
Theorem query_remote_empty_response fuel domain nameservers s inter_res s1 :
  recursive resolver = true →
  query_remote_once fuel domain nameservers s = Return (Some inter_res) s1 →
  DNSMessage.an inter_res = [] → DNSMessage.ns inter_res = [] →
  query_remote fuel domain nameservers s =
    Return None (with_result (DNSMessage.set_r 2 (_result s)) s1).
Proof.
  intros Hrec Honce Han Hns.
  assert (Hres : _result s1 = _result s).
  { apply (query_remote_once_keeps_result fuel domain nameservers).
    by rewrite Honce. }
  rewrite (query_remote_classify resolver qtype _ _ _ _ _ _ Honce).
  cbv zeta. rewrite Han, Hns, Hrec. simpl.
  unfold Query.merged. rewrite Han, Hrec, app_nil_r, Hres. simpl.
  by destruct (_result s).
Qed.

(** *** [query_cache] without a cached CNAME *)

Local Abbreviation hits := (Query.hits resolver qtype).
Local Abbreviation scanned := (Query.scanned resolver).
Local Abbreviation with_glue := (Query.with_glue resolver).
Local Abbreviation glue_of := (Query.glue_of resolver).

(** The loop of lines 67-78 as a whole: it sets [cache_hit] if one of the
    records hits, appends the records that are not of type NS to the
    answer section under the queried name, and takes an NS record, with its
    cached addresses, only when the cache has such addresses. *)
Lemma query_cache_scan_spec domain recs : ∀ cache_hit s,
  query_cache_scan domain recs cache_hit s =
    Return (cache_hit || existsb (hits (world s)) recs)
      {| _result := scanned (world s) domain recs (_result s);
         from_cache := from_cache s; future := future s;
         calls := calls s ++ scan_calls recs; world := world s |}.
Proof.
  induction recs as [|rec rest IH]; intros cache_hit s.
  { simpl. unfold mret, M_ret, Query.scanned, Query.with_glue, scan_calls.
    simpl. rewrite !app_nil_r, orb_false_r. by destruct s as [[] ? ? ? ?]. }
  simpl.
  unfold mbind, mret, M_bind, M_ret, cache_query_, call, set_result_message.
  cbv beta iota zeta.
  destruct (Rec.qtype rec =? types.NS) eqn:Hns;
    [destruct (cache_query resolver (Rec.data rec) A_TYPES (world s))
       as [|g gs] eqn:Hglue|];
    rewrite IH; simpl;
    unfold Query.scanned, Query.with_glue, scan_calls;
    rewrite !filter_cons;
    change (hits (world s) rec) with
      (if Rec.qtype rec =? types.NS then
         match cache_query resolver (Rec.data rec) A_TYPES (world s) with
         | [] => false
         | _ :: _ => Rec.qtype rec =? qtype
         end
       else (qtype =? types.CNAME) || negb (Rec.qtype rec =? types.CNAME));
    unfold Query.glue_of; rewrite ?Hglue, Hns.
  - apply Z.eqb_eq in Hns.
    rewrite (decide_True (P := Rec.qtype rec = types.NS)) by done.
    rewrite (decide_False (P := Rec.qtype rec ≠ types.NS)) by tauto.
    rewrite (decide_False (P := _ ∧ [] ≠ [])) by tauto.
    simpl. by rewrite <- app_assoc.
  - apply Z.eqb_eq in Hns.
    rewrite (decide_True (P := Rec.qtype rec = types.NS)) by done.
    rewrite (decide_False (P := Rec.qtype rec ≠ types.NS)) by tauto.
    rewrite (decide_True (P := _ ∧ g :: gs ≠ [])) by done.
    simpl. rewrite Hglue, <- !app_assoc. simpl.
    f_equal. by destruct (Rec.qtype rec =? qtype), cache_hit.
  - apply Z.eqb_neq in Hns.
    rewrite (decide_False (P := Rec.qtype rec = types.NS)) by done.
    rewrite (decide_True (P := Rec.qtype rec ≠ types.NS)) by done.
    rewrite (decide_False (P := _ ∧ _)) by tauto.
    simpl. rewrite <- !app_assoc. simpl.
    f_equal. by destruct ((qtype =? types.CNAME) || _), cache_hit.
Qed.

(** X8.  When the cache holds no CNAME record of the domain, [query_cache]
    neither raises nor waits nor calls anything but the cache: it returns
    true if a cached record hits or the domain ends with a root domain; the
    message is the one the loop over the cached records leaves, marked
    authoritative under a root domain, with result code 3 there if no
    record hit. *)
Theorem query_cache_without_cname d s :
  cache_query resolver (Str d) [types.CNAME] (world s) = [] →
  let recs := cache_query resolver (Str d) [qtype] (world s) in
  let hit := existsb (hits (world s)) recs in
  let under := existsb (endswith d) (rootdomains resolver) in
  let m := scanned (world s) (Str d) recs (_result s) in
  query_cache (Str d) s =
    Return (hit || under)
      {| _result :=
           if under
           then DNSMessage.set_aa 1 (if hit then m else DNSMessage.set_r 3 m)
           else m;
         from_cache := from_cache s; future := future s;
         calls := calls s ++ [CacheQuery (Str d) [types.CNAME];
                              CacheQuery (Str d) [qtype]] ++ scan_calls recs;
         world := world s |}.
Proof.
  intros Hcname recs hit under m.
  unfold Query.query_cache, mbind, M_bind at 1, cache_query_ at 1, call.
  rewrite Hcname. unfold M_bind at 1, cache_query_, call. cbv beta iota zeta.
  unfold M_bind at 1. rewrite query_cache_scan_spec. simpl.
  fold recs hit m.
  unfold M_bind, under_rootdomains, mret, M_ret, set_result_message.
  subst under.
  destruct (rootdomains resolver) as [|root roots]; simpl.
  { rewrite orb_false_r, <- !app_assoc. done. }
  destruct (endswith d root || existsb (endswith d) roots); simpl.
  - rewrite orb_true_r, <- !app_assoc. by destruct hit.
  - rewrite orb_false_r, <- !app_assoc. done.
Qed.

(** *** [query] on a cache hit *)

(** X9.  When [query_cache] reports a hit for the queried name, [query] makes no
    further call but the one to the logger and, unless the future was
    cancelled meanwhile, fulfils it with the accumulated message and
    [from_cache] true. *)
Theorem query_answered_from_cache fuel s sc :
  future s = Pending →
  query_cache (Str fqdn) s = Return true sc →
  let s1 := logged "[query_cache][%s][%s] %s" (with_from_cache true sc) in
  query (S fuel) s =
    Return tt (if decide (future sc = Cancelled) then s1
               else with_future (Result (_result sc, true)) s1).
Proof.
  intros Hp Hcache s1.
  assert (Hsc : unsettled sc).
  { apply (unsettled_query_cache resolver qtype (Str fqdn) s sc);
      [by left|by rewrite Hcache]. }
  unfold Query.query, try_except_else.
  rewrite query_loop_round by (by rewrite Hp). rewrite Hcache. simpl.
  unfold settle, mbind, M_bind, cancelled, get_self, set_result. simpl.
  destruct Hsc as [Hf|Hf]; rewrite Hf; simpl; [|done].
  by rewrite Hf.
Qed.

(** *** [query_cache] with a cached CNAME *)

Local Abbreviation query_cache_targets :=
  (Query.query_cache_targets resolver qtype).

(** The look-ups of the targets: one call of [resolver.query] per record,
    in the order of the records. *)
Lemma query_cache_targets_calls cname : ∀ s s',
  query_cache_targets cname s = Return tt s' →
  calls s' = calls s ++ ((λ rec, ResolverQuery (Rec.data rec) qtype) <$> cname).
Proof.
  induction cname as [|rec rest IH]; intros s s'; simpl.
  { intros [= <-]. by rewrite app_nil_r. }
  unfold mbind, M_bind at 1 2, await.
  destruct (resolver_query resolver (Rec.data rec) qtype (world s))
    as [[[inter_res|e] c] w]; [|done].
  assert (Hnext : ∀ s1, calls s1 = calls s ++ [ResolverQuery (Rec.data rec) qtype] →
            query_cache_targets rest s1 = Return tt s' →
            calls s' = calls s ++
              ResolverQuery (Rec.data rec) qtype ::
              ((λ rec, ResolverQuery (Rec.data rec) qtype) <$> rest)).
  { intros s1 Hs1 H. rewrite (IH _ _ H), Hs1, <- app_assoc. done. }
  destruct inter_res as [inter_res|]; simpl; [|by apply Hnext].
  destruct (0 <? DNSMessage.r inter_res); simpl; by apply Hnext.
Qed.

(** They never touch the result code and never take an answer record
    away. *)
Lemma query_cache_targets_keeps cname : ∀ s s',
  final_state (query_cache_targets cname s) = Some s' →
  DNSMessage.r (_result s') = DNSMessage.r (_result s) ∧
  ∃ more, DNSMessage.an (_result s') = DNSMessage.an (_result s) ++ more.
Proof.
  induction cname as [|rec rest IH]; intros s s'; simpl.
  { intros [= <-]. split; [done|]. exists []. by rewrite app_nil_r. }
  unfold mbind, M_bind at 1 2, await.
  destruct (resolver_query resolver (Rec.data rec) qtype (world s))
    as [[[inter_res|e] c] w].
  2: { intros [= <-]. split; [done|]. exists []. by rewrite app_nil_r. }
  assert (Hnext : ∀ s1 this,
            DNSMessage.r (_result s1) = DNSMessage.r (_result s) →
            DNSMessage.an (_result s1) = DNSMessage.an (_result s) ++ this →
            final_state (query_cache_targets rest s1) = Some s' →
            DNSMessage.r (_result s') = DNSMessage.r (_result s) ∧
            ∃ more, DNSMessage.an (_result s')
                    = DNSMessage.an (_result s) ++ more).
  { intros s1 this Hr Han H. destruct (IH _ _ H) as (Hr' & more & Han').
    split; [congruence|]. exists (this ++ more).
    by rewrite Han', Han, <- app_assoc. }
  destruct inter_res as [inter_res|]; simpl;
    [|apply (Hnext _ []); simpl; by rewrite ?app_nil_r].
  destruct (0 <? DNSMessage.r inter_res); simpl.
  - apply (Hnext _ []); simpl; by rewrite ?app_nil_r.
  - by apply (Hnext _ (DNSMessage.an inter_res)).
Qed.

(** [query_cache] when the cache holds CNAME records of the domain. *)
Lemma query_cache_cname_branch domain s rec rest :
  cache_query resolver domain [types.CNAME] (world s) = rec :: rest →
  query_cache domain s =
    let cname := rec :: rest in
    let s1 :=
      with_result
        (DNSMessage.set_an
           (DNSMessage.an (_result s) ++
              ((λ rec, Rec.copy_name rec domain) <$> cname)) (_result s))
        (record_call (CacheQuery domain [types.CNAME]) (world s) s) in
    let s2 :=
      if forallb (λ rec, Rec.ttl rec <? 0) cname
      then with_result (DNSMessage.set_aa 1 (_result s1)) s1 else s1 in
    if qtype =? types.CNAME then Return true s2
    else
      match query_cache_targets cname s2 with
      | Return _ s3 => Return true s3
      | Raise e s3 => Raise e s3
      | OutOfFuel => OutOfFuel
      end.
Proof.
  intros Hcname.
  unfold Query.query_cache, mbind, M_bind at 1, cache_query_ at 1, call.
  rewrite Hcname. cbv beta iota zeta.
  unfold M_bind at 1, set_result_message at 1. cbv beta iota zeta.
  unfold M_bind at 1.
  destruct (forallb (λ rec, Rec.ttl rec <? 0) (rec :: rest));
    unfold set_result_message, mret, M_ret; cbv beta iota zeta;
    destruct (qtype =? types.CNAME); try done.
Qed.

(** X10.  When the cache holds CNAME records of the domain, [query_cache]
    returns true whenever it returns.  For a query of type CNAME it appends
    the records under the queried name and calls nothing else; for any
    other type it then calls [resolver.query] once for the data of each of
    these records, in their order.  The result code is never touched, even
    if no target could be resolved, and the appended records stay in
    place. *)
Theorem query_cache_with_cname domain s :
  let cname := cache_query resolver domain [types.CNAME] (world s) in
  let copies := (λ rec, Rec.copy_name rec domain) <$> cname in
  cname ≠ [] →
  (qtype = types.CNAME →
   ∃ s', query_cache domain s = Return true s' ∧
         DNSMessage.an (_result s') = DNSMessage.an (_result s) ++ copies ∧
         calls s' = calls s ++ [CacheQuery domain [types.CNAME]] ∧
         world s' = world s) ∧
  (∀ hit s', query_cache domain s = Return hit s' →
     hit = true ∧
     (qtype ≠ types.CNAME →
      calls s' = calls s ++ CacheQuery domain [types.CNAME] ::
                 ((λ rec, ResolverQuery (Rec.data rec) qtype) <$> cname))) ∧
  (∀ s', final_state (query_cache domain s) = Some s' →
     DNSMessage.r (_result s') = DNSMessage.r (_result s) ∧
     ∃ more, DNSMessage.an (_result s')
             = DNSMessage.an (_result s) ++ copies ++ more).
Proof.
  intros cname copies Hne. subst copies.
  destruct cname as [|rec rest] eqn:Hcname; [done|]. subst cname.
  rewrite (query_cache_cname_branch domain s rec rest Hcname).
  cbv zeta.
  set (s1 := with_result _ (record_call _ _ s)).
  set (s2 := if forallb _ _ then _ else _).
  assert (Hs2 : DNSMessage.an (_result s2)
                  = DNSMessage.an (_result s) ++
                    ((λ rec0, Rec.copy_name rec0 domain) <$> rec :: rest)
                ∧ DNSMessage.r (_result s2) = DNSMessage.r (_result s)
                ∧ calls s2 = calls s ++ [CacheQuery domain [types.CNAME]]
                ∧ world s2 = world s).
  { subst s2. by destruct (forallb _ _). }
  clearbody s2. destruct Hs2 as (Han2 & Hr2 & Hc2 & Hw2).
  destruct (qtype =? types.CNAME) eqn:Hq.
  - apply Z.eqb_eq in Hq. split; [|split].
    + intros _. by exists s2.
    + intros hit s' [= <- <-]. split; [done|]. tauto.
    + intros s' [= <-]. split; [done|]. exists [].
      by rewrite app_nil_r.
  - apply Z.eqb_neq in Hq. split; [tauto|]. split.
    + intros hit s' H.
      destruct (query_cache_targets (rec :: rest) s2) as [[] s3|?|] eqn:Ht;
        try done.
      simplify_eq. split; [done|]. intros _.
      rewrite (query_cache_targets_calls _ _ _ Ht), Hc2, <- app_assoc.
      done.
    + intros s' H.
      assert (Hfin : final_state (query_cache_targets (rec :: rest) s2) = Some s').
      { by destruct (query_cache_targets (rec :: rest) s2). }
      destruct (query_cache_targets_keeps _ _ _ Hfin) as (Hr' & more & Han').
      split; [congruence|]. exists more.
      rewrite Han', Han2, <- app_assoc. done.
Qed.

(** *** The question and the flags [qr] and [ra] *)

Section Heading.
Context (h : Z * list Rec.t * bool).

Local Abbreviation kept := (λ s : State W, heading (_result s) = h).

Lemma heading_debug fmt : preserves kept (debug fmt).
Proof. intros s s' HP [= <-]. done. Qed.

Lemma heading_call {A} ev (op : W → A * W) : preserves kept (call ev op).
Proof.
  intros s s' HP. unfold call. destruct (op (world s)). intros [= <-]. done.
Qed.

Lemma heading_await {A} ev (op : W → res A * bool * W) :
  preserves kept (await ev op).
Proof.
  intros s s' HP. unfold await. destruct (op (world s)) as [[[] ?] ?];
    intros [= <-]; done.
Qed.

Lemma heading_set_from_cache b : preserves kept (set_from_cache b).
Proof. intros s s' HP [= <-]. done. Qed.

Lemma heading_set_result_message f :
  (∀ m, heading (f m) = heading m) → preserves kept (set_result_message f).
Proof. intros Hf s s' HP [= <-]. simpl. by rewrite Hf. Qed.

Lemma heading_query_cache_targets cname :
  preserves kept (query_cache_targets cname).
Proof.
  induction cname as [|rec rest IH]; simpl; [apply preserves_ret|].
  apply preserves_bind; [apply heading_await|]. intros inter_res.
  apply preserves_bind; [|intros _; exact IH].
  destruct inter_res as [inter_res|]; [|apply preserves_ret].
  destruct (0 <? _); [apply preserves_ret|].
  by apply heading_set_result_message.
Qed.

Lemma heading_query_cache domain : preserves kept (query_cache domain).
Proof.
  unfold Query.query_cache, cache_query_.
  apply preserves_bind; [apply heading_call|]. intros [|rec rest].
  - apply preserves_bind; [apply heading_call|]. intros recs.
    apply preserves_bind.
    { intros s s' HP. rewrite query_cache_scan_spec. intros [= <-]. done. }
    intros hit. apply preserves_bind.
    { unfold under_rootdomains. destruct (rootdomains resolver);
        [apply preserves_ret|].
      destruct domain; [apply preserves_ret|apply preserves_raise]. }
    intros [|]; [|apply preserves_ret].
    apply preserves_bind.
    { destruct (negb hit); [|apply preserves_ret].
      apply preserves_bind; [by apply heading_set_result_message|].
      intros _. apply preserves_ret. }
    intros hit'. apply preserves_bind;
      [by apply heading_set_result_message|intros _; apply preserves_ret].
  - apply preserves_bind; [by apply heading_set_result_message|]. intros _.
    apply preserves_bind.
    { destruct (forallb _ _);
        [by apply heading_set_result_message|apply preserves_ret]. }
    intros _. destruct (qtype =? types.CNAME); [apply preserves_ret|].
    apply preserves_bind; [apply heading_query_cache_targets|].
    intros _. apply preserves_ret.
Qed.

Lemma heading_request_remote fuel nameservers req e :
  preserves kept (request_remote fuel nameservers req e).
Proof.
  intros s s' HP H.
  destruct (request_remote_keeps_result _ _ _ _ _ _ H) as (Hr & _).
  by rewrite Hr.
Qed.

Lemma heading_query_remote_once fuel domain nameservers :
  preserves kept (query_remote_once fuel domain nameservers).
Proof.
  unfold Query.query_remote_once.
  apply preserves_bind.
  { destruct nameservers; [apply preserves_ret|apply heading_call]. }
  intros ns0. apply preserves_bind; [apply heading_debug|]. intros _.
  apply preserves_bind; [apply heading_request_remote|]. intros inter_res.
  apply preserves_bind; [apply heading_call|]. intros x.
  apply preserves_bind; [apply preserves_lift|]. intros _.
  apply preserves_ret.
Qed.

Lemma heading_merged result inter_res :
  heading (Query.merged resolver result inter_res) = heading result.
Proof. unfold Query.merged. by destruct (negb (recursive resolver)). Qed.

Lemma heading_query_remote fuel domain nameservers :
  preserves kept (query_remote fuel domain nameservers).
Proof.
  intros s s' HP H.
  destruct (query_remote_once fuel domain nameservers s)
    as [[inter_res|] s1|e s1|] eqn:Honce.
  - assert (HP1 : heading (_result s1) = h).
    { apply (heading_query_remote_once fuel domain nameservers s s1 HP).
      by rewrite Honce. }
    rewrite (query_remote_classify resolver qtype _ _ _ _ _ _ Honce) in H.
    cbv zeta in H.
    assert (Hm : heading (Query.merged resolver (_result s1) inter_res) = h)
      by (by rewrite heading_merged).
    destruct (existsb _ _ || existsb _ _); [by injection H as <-|].
    destruct (cname_targets _); [|by injection H as <-].
    destruct (negb (recursive resolver)); [by injection H as <-|].
    destruct (negb (existsb _ _)); [by injection H as <-|].
    destruct (nsips_of _ _ _); by injection H as <-.
  - pose proof (query_remote_without_response _ _ _ _ _ Honce) as Hr.
    rewrite Hr in H. injection H as <-.
    apply (heading_query_remote_once fuel domain nameservers s s1 HP).
    by rewrite Honce.
  - unfold Query.query_remote, mbind, M_bind in H. rewrite Honce in H.
    injection H as <-.
    apply (heading_query_remote_once fuel domain nameservers s s1 HP).
    by rewrite Honce.
  - unfold Query.query_remote, mbind, M_bind in H. by rewrite Honce in H.
Qed.

Lemma heading_query_loop fuel : ∀ domain nameservers,
  preserves kept (query_loop fuel domain nameservers).
Proof.
  induction fuel as [|fuel IH]; intros domain nameservers s s' HP H; [done|].
  destruct (decide (future s = Cancelled)) as [Hc|Hc].
  { by rewrite query_loop_cancelled in H. }
  rewrite query_loop_round in H by done.
  destruct (query_cache domain s) as [hit sc|e sc|] eqn:Hcache; [| |done].
  2: { injection H as <-. apply (heading_query_cache domain s sc HP).
       by rewrite Hcache. }
  assert (HPc : heading (_result sc) = h).
  { apply (heading_query_cache domain s sc HP). by rewrite Hcache. }
  cbv zeta in H. destruct hit; [by injection H as <-|].
  set (sl := logged _ (with_from_cache false sc)) in H.
  assert (HPl : heading (_result sl) = h) by exact HPc.
  destruct (decide _); [by apply (IH _ _ sl s' HPl H)|].
  destruct (query_remote fuel domain nameservers _)
    as [[[d' ns']|] s1|e s1|] eqn:Hremote; [| | |done].
  all: assert (HP1 : heading (_result s1) = h)
    by (apply (heading_query_remote fuel domain nameservers sl s1 HPl);
        by rewrite Hremote).
  - by apply (IH _ _ _ _ HP1 H).
  - by injection H as <-.
  - by injection H as <-.
Qed.
End Heading.

(** X11.  [query] never changes the question section nor the flags [qr] and [ra]
    of the accumulated message; the pair that fulfils the future is that
    message with the value of [from_cache].  For a [Query] as [__init__]
    creates it, the fulfilled message therefore carries the question for
    [fqdn] and [qtype] and the resolver's [recursive] as [ra]. *)
Theorem query_keeps_question fuel s s' :
  final_state (query fuel s) = Some s' →
  heading (_result s') = heading (_result s) ∧
  (∀ m b, future s = Pending → future s' = Result (m, b) →
     m = _result s' ∧ b = from_cache s') ∧
  (∀ default_qr w m b,
     s = init resolver fqdn qtype default_qr w → future s' = Result (m, b) →
     DNSMessage.qd m = [Rec.question (Str fqdn) qtype] ∧
     DNSMessage.ra m = recursive resolver ∧ DNSMessage.qr m = default_qr).
Proof.
  intros H.
  assert (Hfin : ∃ error s1,
    final_state (query_loop fuel (Str fqdn) None s) = Some s1 ∧
    final_state (settle error s1) = Some s').
  { unfold Query.query, try_except_else in H.
    destruct (query_loop fuel (Str fqdn) None s) as [[] s1|e s1|];
      [exists None, s1|exists (Some e), s1|]; done. }
  destruct Hfin as (error & s1 & Hloop & Hsettle).
  assert (Hh : heading (_result s1) = heading (_result s)).
  { by apply (heading_query_loop _ fuel (Str fqdn) None s s1). }
  assert (Hs' : _result s' = _result s1 ∧ from_cache s' = from_cache s1 ∧
                (future s' = future s1 ∨
                 future s1 = Pending ∧
                 (future s' = Result (_result s1, from_cache s1) ∨
                  ∃ e, future s' = Exception e))).
  { unfold settle, mbind, M_bind, cancelled, set_exception, set_result,
           get_self in Hsettle.
    destruct (future s1) eqn:Hf1; simpl in Hsettle;
      destruct error; simpl in Hsettle; rewrite ?Hf1 in Hsettle;
      simplify_eq/=; eauto 10. }
  destruct Hs' as (Hr' & Hfc' & Hfut).
  assert (Hres : ∀ m b, future s = Pending → future s' = Result (m, b) →
                        m = _result s' ∧ b = from_cache s').
  { intros m b Hp Hf.
    assert (Hu : unsettled s1).
    { apply (unsettled_query_loop resolver qtype fuel (Str fqdn) None s s1);
        [by left|done]. }
    destruct Hfut as [Hsame|[Hp1 [Hfulfil|[e He]]]].
    - destruct Hu as [Hu|Hu]; congruence.
    - rewrite Hfulfil in Hf. simplify_eq. by rewrite Hr', Hfc'.
    - congruence. }
  split; [by rewrite Hr'|]. split; [done|].
  intros default_qr w m b -> Hf.
  destruct (Hres m b eq_refl Hf) as [-> _].
  rewrite Hr'. unfold heading in Hh. simpl in Hh. by simplify_eq.
Qed.

(** *** [query] without a usable nameserver *)

Lemma bind_return {A B} (m : Query.M A) (f : A → Query.M B) (s : State W) a s1 :
  m s = Return a s1 → (m ≫= f) s = f a s1.
Proof. intros H. unfold mbind, M_bind. by rewrite H. Qed.

Lemma bind_raise {A B} (m : Query.M A) (f : A → Query.M B) (s : State W) e s1 :
  m s = Raise e s1 → (m ≫= f) s = Raise e s1.
Proof. intros H. unfold mbind, M_bind. by rewrite H. Qed.

Lemma query_remote_exhausted fuel domain s nameservers w1 w2 :
  future s ≠ Cancelled →
  get_nameservers resolver domain (world s) = (nameservers, w1) →
  ns_get resolver nameservers w1 = (None, w2) →
  query_remote (S fuel) domain None s =
    Raise InvalidNameServer
      (record_call Get w2
         (logged "[query_remote][%s][%s] %s"
            (record_call (GetNameservers domain) w1 s))).
Proof.
  intros Hc Hns Hget.
  unfold Query.query_remote. apply bind_raise.
  unfold Query.query_remote_once.
  erewrite bind_return; [|unfold call; by rewrite Hns].
  erewrite bind_return; [|done].
  apply bind_raise.
  by apply request_remote_exhausted.
Qed.

(** X12.  When the cache does not answer and the nameserver set that the resolver
    gives for the queried name has no address to offer, [query] rejects the
    future with [InvalidNameServer]: no request is sent and the message is
    left as the cache step left it. *)
Theorem query_without_nameserver fuel s sc nameservers w1 w2 :
  future s = Pending →
  query_cache (Str fqdn) s = Return false sc →
  future sc = Pending →
  get_nameservers resolver (Str fqdn) (world sc) = (nameservers, w1) →
  ns_get resolver nameservers w1 = (None, w2) →
  ∃ s', query (S (S fuel)) s = Return tt s' ∧
        future s' = Exception InvalidNameServer ∧
        _result s' = _result sc ∧ from_cache s' = false ∧
        calls s' = calls sc ++ [Debug "[query_cache][%s][%s] %s";
                                GetNameservers (Str fqdn);
                                Debug "[query_remote][%s][%s] %s"; Get].
Proof.
  intros Hp Hcache Hpc Hns Hget.
  unfold Query.query, try_except_else.
  rewrite query_loop_round by (by rewrite Hp). rewrite Hcache. cbv zeta.
  rewrite decide_False by (simpl; by rewrite Hpc).
  rewrite (query_remote_exhausted fuel (Str fqdn) _ nameservers w1 w2);
    [|simpl; by rewrite Hpc|done|done].
  unfold settle, mbind, M_bind, cancelled, set_exception. simpl.
  rewrite Hpc. simpl. rewrite Hpc. eexists. split; [done|].
  simpl. rewrite <- !app_assoc. done.
Qed.

(** *** The test for a root domain *)

Lemma substring_all (s : string) : String.substring 0 (String.length s) s = s.
Proof. induction s as [|c s IH]; simpl; [done|by rewrite IH]. Qed.

Lemma substring_none (s : string) : String.substring 0 0 s = ""%string.
Proof. by destruct s. Qed.

Lemma length_append (p s : string) :
  String.length (p +:+ s) = (String.length p + String.length s)%nat.
Proof. induction p as [|c p IH]; simpl; [done|by rewrite IH]. Qed.

Lemma substring_append (p s : string) :
  String.substring (String.length p) (String.length s) (p +:+ s) = s.
Proof. induction p as [|c p IH]; simpl; [apply substring_all|done]. Qed.

Lemma substring_split (s : string) : ∀ n, (n ≤ String.length s)%nat →
  s = String.substring 0 n s +:+ String.substring n (String.length s - n) s.
Proof.
  induction s as [|c s IH]; intros n Hn; simpl in *.
  { by destruct n. }
  destruct n as [|n]; simpl.
  - by rewrite substring_all.
  - change (String c (String.substring 0 n s) +:+ ?y)
      with (String c (String.substring 0 n s +:+ y)).
    f_equal. apply IH. lia.
Qed.

(** [endswith] is the suffix test on texts. *)
Lemma endswith_suffix (s suffix : string) :
  endswith s suffix = true ↔ ∃ prefix, s = prefix +:+ suffix.
Proof.
  unfold endswith. rewrite andb_true_iff, Nat.leb_le, String.eqb_eq. split.
  - intros [Hlen Hsub].
    exists (String.substring 0 (String.length s - String.length suffix) s).
    pose proof (substring_split s (String.length s - String.length suffix))
      as Hsplit.
    replace (String.length s - (String.length s - String.length suffix))%nat
      with (String.length suffix) in Hsplit by lia.
    rewrite Hsub in Hsplit. apply Hsplit. lia.
  - intros [prefix ->]. rewrite length_append. split; [lia|].
    replace (String.length prefix + String.length suffix
             - String.length suffix)%nat with (String.length prefix) by lia.
    apply substring_append.
Qed.

(** X13.  The test of line 79 on a domain name: it looks into nothing, changes
    nothing and says yes exactly when the name is some text followed by one
    of the root domains, which need not start at a label of the name. *)
Theorem under_rootdomains_spec d (s : State W) :
  ∃ under, under_rootdomains resolver (Str d) s = Return under s ∧
    (under = true ↔
     ∃ root prefix, root ∈ rootdomains resolver ∧ d = prefix +:+ root).
Proof.
  exists (existsb (endswith d) (rootdomains resolver)). split.
  - unfold under_rootdomains. by destruct (rootdomains resolver).
  - rewrite existsb_exists. split.
    + intros (root & Hin & (prefix & ->)%endswith_suffix).
      exists root, prefix. split; [by apply list_elem_of_In|done].
    + intros (root & prefix & Hin & ->). exists root.
      split; [by apply list_elem_of_In|]. apply endswith_suffix. eauto.
Qed.

(** *** [query_remote] after a cancellation *)

(** X14.  When [request_remote] has given up because the future is cancelled,
    [query_remote] does not return: [resolver.cache_message] is called
    with nothing and raises, or else reading the answer section of the
    missing response raises [AttributeError].  The future is still
    cancelled and the accumulated message untouched. *)
Theorem query_remote_given_up fuel domain nameservers s nameservers0 s0 s1 :
  match nameservers with
  | Some given => nameservers0 = given ∧ s0 = s
  | None =>
      nameservers0 = (get_nameservers resolver domain (world s)).1 ∧
      s0 = record_call (GetNameservers domain)
             (get_nameservers resolver domain (world s)).2 s
  end →
  request_remote fuel nameservers0 (request_for qtype domain) None
    (logged "[query_remote][%s][%s] %s" s0) = Return None s1 →
  ∃ e s', query_remote fuel domain nameservers s = Raise e s' ∧
          future s' = Cancelled ∧ _result s' = _result s ∧
          last (calls s') = Some (CacheMessage None) ∧
          (e = AttributeError ∨
           (cache_message resolver None (world s1)).1 = Exc e).
Proof.
  intros Hns Hreq.
  pose proof (request_remote_checked _ _ _ _ _ _ _ Hreq) as Hc. simpl in Hc.
  destruct (request_remote_keeps_result fuel nameservers0
              (request_for qtype domain) None
              (logged "[query_remote][%s][%s] %s" s0) s1)
    as (Hr1 & _); [by rewrite Hreq|]. simpl in Hr1.
  assert (Hs0 : _result s0 = _result s ∧
    (match nameservers with
     | Some nameservers => mret nameservers
     | None => call (GetNameservers domain) (get_nameservers resolver domain)
     end : Query.M NS) s = Return nameservers0 s0).
  { destruct nameservers as [given|]; destruct Hns as [-> ->]; [done|].
    unfold call. by destruct (get_nameservers resolver domain (world s)). }
  destruct Hs0 as [Hr0 Hpick].
  assert (Honce : query_remote_once fuel domain nameservers s =
    match cache_message resolver None (world s1) with
    | (Val _, w) => Return None (record_call (CacheMessage None) w s1)
    | (Exc e, w) => Raise e (record_call (CacheMessage None) w s1)
    end).
  { unfold Query.query_remote_once.
    erewrite bind_return; [|exact Hpick].
    erewrite bind_return; [|done].
    erewrite bind_return; [|exact Hreq].
    unfold mbind, M_bind, call, lift, mret, M_ret.
    by destruct (cache_message resolver None (world s1)) as [[[]|e] w]. }
  unfold Query.query_remote.
  destruct (cache_message resolver None (world s1)) as [[[]|e] w] eqn:Hcm.
  - erewrite bind_return; [|exact Honce].
    exists AttributeError. eexists. split; [done|]. simpl.
    rewrite last_snoc. split; [done|]. split; [congruence|]. auto.
  - erewrite bind_raise; [|exact Honce].
    exists e. eexists. split; [done|]. simpl.
    rewrite last_snoc. split; [done|]. split; [congruence|]. auto.
Qed.

End More.

(** ** The theorems above at work *)

Import Example MoreExamples.

(** The first server times out, the second one answers: the response
    returned has passed the checks. *)
Lemma request_remote_returns_witness :
  let R := example_resolver true [] in
  let req := Query.request_for types.A (Str "www.example.com") in
  let s := start true "www.example.com" types.A
             (on_network [(Exc TimeoutError, false);
                          (Val [Byte.x01], false)]) in
  ∃ s', request_remote R 5 [server1; server2] req None s
          = Return (Some answer) s' ∧
        validated req answer ∧ future s ≠ Cancelled.
Proof.
  intros R req s. eexists. split; [lazy; reflexivity|].
  eapply (request_remote_returns R 5 [server1; server2] req None s
            (Some answer)).
  lazy; reflexivity.
Defined.

(** The same run: the first server is marked failed after a request has
    been sent to it. *)
Lemma request_remote_frame_witness :
  let R := example_resolver true [] in
  let req := Query.request_for types.A (Str "www.example.com") in
  let s := start true "www.example.com" types.A
             (on_network [(Exc TimeoutError, false);
                          (Val [Byte.x01], false)]) in
  ∃ s', final_state (request_remote R 5 [server1; server2] req None s)
          = Some s' ∧
        _result s' = _result s ∧ from_cache s' = from_cache s ∧
        ∃ evs, calls s' = calls s ++ evs ∧ Fail server1 ∈ evs ∧
               ∃ p, Request p req server1 ∈ evs.
Proof.
  intros R req s. eexists. split; [lazy; reflexivity|].
  destruct (request_remote_frame R 5 [server1; server2] req None s _
              eq_refl) as (H1 & H2 & evs & H3 & H4).
  split; [exact H1|]. split; [exact H2|].
  exists evs. split; [exact H3|].
  assert (Hin : Fail server1 ∈ evs).
  { lazy in H3. subst evs. apply list_elem_of_In. simpl. tauto. }
  split; [exact Hin|]. exact (H4 server1 Hin).
Defined.

(** One round of [query_remote_once] against a server that answers. *)
Lemma query_remote_once_returns_witness :
  let R := example_resolver true [] in
  let s := start true "www.example.com" types.A
             (on_network [(Val [Byte.x01], false)]) in
  ∃ s', query_remote_once R types.A 5 (Str "www.example.com") None s
          = Return (Some answer) s' ∧
        last (calls s') = Some (CacheMessage (Some answer)) ∧
        validated (Query.request_for types.A (Str "www.example.com")) answer ∧
        _result s' = _result s ∧ from_cache s' = from_cache s.
Proof.
  intros R s. eexists. split; [lazy; reflexivity|].
  eapply (query_remote_once_returns R types.A 5 (Str "www.example.com") None
            s (Some answer)).
  lazy; reflexivity.
Defined.

(** A non-recursive resolver that receives a referral: all three sections
    of the response are merged. *)
Lemma query_remote_sections_witness :
  let R := example_resolver false [] in
  let s := start false "www.example.com" types.A
             (on_network [(Val [Byte.x05], false)]) in
  ∃ s', query_remote R types.A 5 (Str "www.example.com") None s
          = Return None s' ∧
        DNSMessage.an (_result s') = [] ∧
        DNSMessage.ns (_result s') = DNSMessage.ns referral ∧
        DNSMessage.ar (_result s') = DNSMessage.ar referral.
Proof.
  intros R s. eexists. split; [lazy; reflexivity|].
  edestruct (query_remote_sections R types.A 5 (Str "www.example.com") None s
               None) as (inter_res & s1 & Honce & Han & Hns & Har);
    [lazy; reflexivity|].
  injection Honce as <- _.
  split; [exact Han|]. split; [exact Hns|exact Har].
Defined.

(** A response that carries an address record for the question ends the
    round. *)
Lemma query_remote_answered_witness :
  let R := example_resolver true [] in
  let s := start true "www.example.com" types.A
             (on_network [(Val [Byte.x01], false)]) in
  ∃ s1, query_remote_once R types.A 5 (Str "www.example.com") None s
          = Return (Some answer) s1 ∧
        existsb (answers_query types.A) (DNSMessage.an answer)
          || existsb (settles_query types.A) (DNSMessage.ns answer) = true ∧
        ∃ s', query_remote R types.A 5 (Str "www.example.com") None s
                = Return None s' ∧
              DNSMessage.r (_result s') = DNSMessage.r (_result s) ∧
              DNSMessage.aa (_result s') = DNSMessage.aa (_result s) ∧
              calls s' = calls s1 ∧ world s' = world s1.
Proof.
  intros R s. eexists. split; [lazy; reflexivity|]. split; [reflexivity|].
  eapply (query_remote_answered R types.A 5 (Str "www.example.com") None s
            answer); [lazy; reflexivity|reflexivity].
Defined.

(** A non-recursive resolver that receives aliases hands back the first
    target and no name servers. *)
Lemma query_remote_iterative_witness :
  let R := example_resolver false [] in
  let s := start false "www.example.com" types.A
             (on_network [(Val [Byte.x04], false)]) in
  recursive R = false ∧
  ∃ s', query_remote R types.A 5 (Str "www.example.com") None s
          = Return (Some (Str "host.example.net", None)) s' ∧
        ∃ s1, query_remote_once R types.A 5 (Str "www.example.com") None s
                = Return (Some alias) s1 ∧
              calls s' = calls s1 ∧
              head (cname_targets (DNSMessage.an alias))
                = Some (Str "host.example.net").
Proof.
  intros R s. split; [reflexivity|]. eexists. split; [lazy; reflexivity|].
  edestruct (query_remote_iterative R types.A 5 (Str "www.example.com") None s
               (Some (Str "host.example.net", None)))
    as (inter_res & s1 & Honce & Hcalls & _ & Hhead);
    [reflexivity|lazy; reflexivity|].
  pose proof Honce as Heq. injection Heq as <- _.
  exists s1. split; [exact Honce|]. split; [exact Hcalls|exact Hhead].
Defined.

(** A recursive resolver that receives a response without records. *)
Lemma query_remote_empty_response_witness :
  let R := resolver_more true [] in
  let s := start true "www.example.com" types.A
             (on_network [(Val [Byte.x06], false)]) in
  recursive R = true ∧
  DNSMessage.an no_data = [] ∧ DNSMessage.ns no_data = [] ∧
  ∃ s1, query_remote_once R types.A 5 (Str "www.example.com") None s
          = Return (Some no_data) s1 ∧
        query_remote R types.A 5 (Str "www.example.com") None s =
          Return None (with_result (DNSMessage.set_r 2 (_result s)) s1).
Proof.
  intros R s. split; [reflexivity|]. split; [reflexivity|].
  split; [reflexivity|]. eexists. split; [lazy; reflexivity|].
  apply (query_remote_empty_response R types.A 5 (Str "www.example.com") None
           s no_data); reflexivity || (lazy; reflexivity).
Defined.

(** The only request times out while the future is cancelled. *)
Lemma query_remote_given_up_witness :
  let R := example_resolver true [] in
  let s := start true "www.example.com" types.A
             (on_network [(Exc TimeoutError, true)]) in
  let s0 := record_call (GetNameservers (Str "www.example.com")) (world s) s in
  ∃ s1, request_remote R 5 [server1; server2]
          (Query.request_for types.A (Str "www.example.com")) None
          (logged "[query_remote][%s][%s] %s" s0) = Return None s1 ∧
    ∃ s', query_remote R types.A 5 (Str "www.example.com") None s
            = Raise AttributeError s' ∧
          future s' = Cancelled ∧ _result s' = _result s ∧
          last (calls s') = Some (CacheMessage None).
Proof.
  intros R s s0. eexists. split; [lazy; reflexivity|].
  edestruct (query_remote_given_up R types.A 5 (Str "www.example.com") None s
               [server1; server2] s0)
    as (e & s' & Hq & Hf & Hr & Hl & He); [by split|lazy; reflexivity|].
  exists s'. split; [|by repeat split].
  rewrite Hq. f_equal. by destruct He as [->|[= <-]].
Defined.

(** The cache holds the address and no alias: the record is added to the
    answer and the query is a hit. *)
Lemma query_cache_without_cname_witness :
  let R := example_resolver true [] in
  let s := start true "www.example.com" types.A
             (with_cache [cached_address]) in
  cache_query R (Str "www.example.com") [types.CNAME] (world s) = [] ∧
  ∃ s', query_cache R types.A (Str "www.example.com") s = Return true s' ∧
        DNSMessage.an (_result s') = [cached_address] ∧
        DNSMessage.r (_result s') = 0 ∧ world s' = world s.
Proof.
  intros R s. split; [reflexivity|].
  eexists. split.
  - apply (query_cache_without_cname R types.A "www.example.com" s).
    reflexivity.
  - lazy. done.
Defined.

(** With the address in the cache, [query] fulfils the future from the
    cache and sends nothing. *)
Lemma query_answered_from_cache_witness :
  let R := example_resolver true [] in
  let s := start true "www.example.com" types.A
             (with_cache [cached_address]) in
  future s = Pending ∧
  ∃ sc s', query_cache R types.A (Str "www.example.com") s = Return true sc ∧
           query R "www.example.com" types.A 1 s = Return tt s' ∧
           future s' = Result (_result sc, true) ∧
           DNSMessage.an (_result sc) = [cached_address].
Proof.
  intros R s. split; [reflexivity|].
  eexists. eexists. split; [lazy; reflexivity|]. split.
  - eapply (query_answered_from_cache R "www.example.com" types.A 0 s);
      [reflexivity|lazy; reflexivity].
  - lazy. done.
Defined.

(** The cache holds an alias of the name and nothing about its target. *)
Lemma query_cache_with_cname_witness :
  let R := example_resolver true [] in
  let s := start true "www.example.com" types.A
             (with_cache [cached_alias]) in
  cache_query R (Str "www.example.com") [types.CNAME] (world s) ≠ [] ∧
  ∃ s', query_cache R types.A (Str "www.example.com") s = Return true s' ∧
        calls s' = [CacheQuery (Str "www.example.com") [types.CNAME];
                    ResolverQuery (Str "host.example.net") types.A] ∧
        DNSMessage.r (_result s') = 0 ∧
        ∃ more, DNSMessage.an (_result s') = [cached_alias] ++ more.
Proof.
  intros R s.
  assert (Hne : cache_query R (Str "www.example.com") [types.CNAME] (world s)
                ≠ []) by done.
  split; [exact Hne|].
  destruct (query_cache_with_cname R types.A (Str "www.example.com") s Hne)
    as (_ & Hret & Hfin).
  eexists. split; [lazy; reflexivity|].
  split; [by apply (Hret true); [lazy; reflexivity|]|].
  by apply Hfin.
Defined.

(** A query that is answered by the first server: the message delivered
    carries the question the [Query] was created with. *)
Lemma query_keeps_question_witness :
  let R := example_resolver true [] in
  let s := Query.init R "www.example.com" types.A 1
             (on_network [(Val [Byte.x01], false)]) in
  ∃ s', final_state (query R "www.example.com" types.A 3 s) = Some s' ∧
        heading (_result s') = heading (_result s) ∧
        ∃ m, future s' = Result (m, false) ∧ m = _result s' ∧
             DNSMessage.qd m = [Rec.question (Str "www.example.com") types.A] ∧
             DNSMessage.ra m = true ∧ DNSMessage.qr m = 1.
Proof.
  intros R s. eexists. split; [lazy; reflexivity|].
  edestruct (query_keeps_question R "www.example.com" types.A 3 s)
    as (Hh & Hres & Hinit); [lazy; reflexivity|].
  split; [exact Hh|]. eexists. split; [lazy; reflexivity|].
  split; [by apply (Hres _ false)|].
  by apply (Hinit 1 (on_network [(Val [Byte.x01], false)]) _ false).
Defined.

(** Every name server of the zone has failed before. *)
Lemma query_without_nameserver_witness :
  let R := example_resolver true [] in
  let s := start true "www.example.com" types.A all_failed in
  future s = Pending ∧
  ∃ sc, query_cache R types.A (Str "www.example.com") s = Return false sc ∧
        future sc = Pending ∧
        get_nameservers R (Str "www.example.com") (world sc)
          = ([server1; server2], all_failed) ∧
        ns_get R [server1; server2] all_failed = (None, all_failed) ∧
        ∃ s', query R "www.example.com" types.A 2 s = Return tt s' ∧
              future s' = Exception InvalidNameServer ∧
              from_cache s' = false.
Proof.
  intros R s. split; [reflexivity|].
  eexists. split; [lazy; reflexivity|]. split; [reflexivity|].
  split; [reflexivity|]. split; [reflexivity|].
  edestruct (query_without_nameserver R "www.example.com" types.A 0 s)
    as (s' & Hq & Hf & _ & Hc & _);
    [reflexivity|lazy; reflexivity|reflexivity|lazy; reflexivity
    |lazy; reflexivity|].
  by exists s'.
Defined.

(** "printer.corp" lies under the local root domain "corp". *)
Lemma under_rootdomains_spec_witness :
  let R := example_resolver true ["corp"%string] in
  let s := start true "printer.corp" types.A quiet in
  under_rootdomains R (Str "printer.corp") s = Return true s.
Proof.
  intros R s.
  destruct (under_rootdomains_spec R "printer.corp" s) as (under & Hret & Hiff).
  rewrite Hret. f_equal. apply Hiff.
  exists "corp"%string, "printer."%string. split; [constructor|reflexivity].
Defined.
End QueryMore.

(** * More on [BaseResolver] *)

Module BaseResolverMore.
Import BaseResolver BaseResolverInv BaseResolverFacts.

(** ** [BaseResolver.query]: whose task answers a call *)

(** X15.  In every reachable state, a call of [query] with key [k] is served by
    a task that was created for [k] and that the ledger holds under [k]:
    the caller is either suspended on it (last in its callbacks) or, when
    the task has already finished, handed its outcome at once.  Entries of
    the ledger under other keys and tasks of other keys are left as they
    are, and no callback is scheduled. *)
Theorem query_served_by_own_key (tr : list event) (c : nat) (k : Key) :
  let L := run tr init in
  let L' := query c k L in
  (∃ t T, request_cache L' !! k = Some t ∧ tasks L' !! t = Some T ∧
          key T = k ∧
          match state T with
          | None => last (callbacks T) = Some (Wakeup c) ∧
                    returned L' = returned L
          | Some o => returned L' = returned L ++ [(c, t, o)]
          end) ∧
  (∀ k', k' ≠ k → request_cache L' !! k' = request_cache L !! k') ∧
  (∀ t' T', tasks L !! t' = Some T' → key T' ≠ k →
            tasks L' !! t' = Some T') ∧
  ready L' = ready L.
Proof.
  intros L L'. pose proof (reachable_inv tr) as HI. fold L in HI.
  unfold L', query.
  destruct (request_cache L !! k) as [t|] eqn:Hk.
  - destruct (inv_cache L HI k t Hk) as (T & Ht & Hkey & _).
    unfold await. rewrite Ht.
    destruct (state T) as [o|] eqn:Hst; simpl.
    + split; [|by split; [|split]].
      exists t, T. by rewrite Hk, Ht, Hst.
    + split; [|split; [done|split; [|done]]].
      * eexists t, _. rewrite Hk.
        rewrite list_lookup_insert_eq by (by eapply lookup_lt_Some).
        split; [done|]. split; [done|]. simpl.
        by rewrite last_snoc.
      * intros t' T' Ht' Hne.
        rewrite list_lookup_insert_ne; [done|].
        intros <-. congruence.
  - unfold await. simpl.
    rewrite lookup_app_r by done. rewrite Nat.sub_diag. simpl.
    split; [|split; [|split; [|done]]].
    + eexists (length (tasks L)), _.
      rewrite lookup_insert_eq.
      rewrite list_lookup_insert_eq by (rewrite length_app; simpl; lia).
      done.
    + intros k' Hne. by rewrite lookup_insert_ne.
    + intros t' T' Ht' _.
      pose proof (lookup_lt_Some _ _ _ Ht') as Hlt.
      rewrite list_lookup_insert_ne by lia.
      by rewrite lookup_app_l.
Qed.

(** ** The ledger does not leak *)

Lemma finish_length t o L : length (tasks (finish t o L)) = length (tasks L).
Proof.
  unfold finish. destruct (tasks L !! t) as [T|]; [|done].
  destruct (state T); [done|]. simpl. by rewrite length_insert.
Qed.

Lemma finish_keys t o L : key <$> tasks (finish t o L) = key <$> tasks L.
Proof.
  unfold finish. destruct (tasks L !! t) as [T|] eqn:Ht; [|done].
  destruct (state T); [done|]. simpl.
  rewrite list_fmap_insert. simpl.
  apply list_insert_id. by rewrite list_lookup_fmap, Ht.
Qed.

Lemma finish_cache t o L : request_cache (finish t o L) = request_cache L.
Proof.
  unfold finish. destruct (tasks L !! t) as [T|]; [|done].
  by destruct (state T).
Qed.

Lemma finish_settled_below n o L :
  settled_below n L → settled_below (S n) (finish n o L).
Proof.
  intros Hn t T Hlt. unfold finish.
  destruct (tasks L !! n) as [Tn|] eqn:Hn'.
  - destruct (state Tn) eqn:Hst; simpl.
    + intros Ht. destruct (decide (t = n)) as [->|]; [congruence|].
      apply (Hn t); [lia|done].
    + destruct (decide (t = n)) as [->|].
      * rewrite list_lookup_insert_eq by (by eapply lookup_lt_Some).
        by intros [= <-].
      * rewrite list_lookup_insert_ne by done. apply Hn. lia.
  - intros Ht. destruct (decide (t = n)) as [->|]; [congruence|].
    apply (Hn t); [lia|done].
Qed.

Lemma finish_all_spec o n : ∀ L,
  let L' := run (finish_all o n) L in
  settled_below n L' ∧ length (tasks L') = length (tasks L) ∧
  key <$> tasks L' = key <$> tasks L ∧
  request_cache L' = request_cache L.
Proof.
  induction n as [|n IH]; intros L; cbv zeta.
  - split; [|done]. intros t T Hlt. lia.
  - unfold finish_all. rewrite seq_S, fmap_app, run_app. simpl.
    destruct (IH L) as (H1 & H2 & H3 & H4).
    fold (finish_all o n).
    split; [by apply finish_settled_below|].
    by rewrite finish_length, finish_keys, finish_cache.
Qed.

Lemma drain_ready n : ∀ L,
  length (ready L) = n → ready (run (replicate n RunCallback) L) = [].
Proof.
  induction n as [|n IH]; intros L Hlen; simpl.
  - by apply nil_length_inv.
  - apply IH. unfold run_callback.
    destruct (ready L) as [|[t [k|c]] rest]; simpl in *; lia.
Qed.

(** X16.  Whatever the program has done, once the tasks in flight finish (here
    with any outcome [o]) and the loop has run the callbacks it holds, the
    ledger is empty and the queue drained, without any further request
    being made: no entry of [request_cache] outlives its task. *)
Theorem request_cache_drains (tr : list event) (o : outcome) :
  ∃ tr', Forall (λ e, ∀ c k, e ≠ Query c k) tr' ∧
    let L := run tr init in
    let L' := run (tr ++ tr') init in
    request_cache L' = ∅ ∧ ready L' = [] ∧
    (∀ k, requests k L' = requests k L) ∧
    ∀ t T, tasks L' !! t = Some T → state T ≠ None.
Proof.
  set (L := run tr init).
  set (L1 := run (finish_all o (length (tasks L))) L).
  exists (finish_all o (length (tasks L)) ++
          replicate (length (ready L1)) RunCallback).
  split.
  { apply Forall_app. split.
    - unfold finish_all. apply Forall_fmap, Forall_forall. by intros.
    - apply Forall_forall. intros e [-> _]%elem_of_replicate. by intros c k. }
  simpl. rewrite !run_app. fold L. fold L1.
  set (L2 := run (replicate (length (ready L1)) RunCallback) L1).
  destruct (finish_all_spec o (length (tasks L)) L) as (H1 & H2 & H3 & H4).
  fold L1 in H1, H2, H3, H4.
  assert (Hready : ready L2 = []) by by apply drain_ready.
  assert (Htasks : tasks L2 = tasks L1) by apply drain_tasks.
  assert (Hdone : ∀ t T, tasks L2 !! t = Some T → state T ≠ None).
  { intros t T Ht. rewrite Htasks in Ht. apply (H1 t); [|done].
    rewrite <- H2. by eapply lookup_lt_Some. }
  assert (HI : Inv L2).
  { unfold L2, L1. do 2 apply run_inv. apply reachable_inv. }
  split; [|split; [done|split; [|done]]].
  - apply map_empty. intros k.
    destruct (request_cache L2 !! k) as [t|] eqn:Hk; [|done].
    destruct (inv_cache L2 HI k t Hk) as (T & Ht & _ & [Hp|Hp]).
    + by destruct (Hdone t T Ht).
    + rewrite Hready in Hp. by apply elem_of_nil in Hp.
  - intros k. unfold requests. by rewrite Htasks, H3.
Qed.

(** Two requests are in flight; a third caller asks for the first key
    again. *)
Lemma query_served_by_own_key_witness :
  let L := run [Query 1 example_key; Query 2 other_key] init in
  let L' := query 3 example_key L in
  (∃ t T, request_cache L' !! example_key = Some t ∧
          tasks L' !! t = Some T ∧ key T = example_key ∧
          last (callbacks T) = Some (Wakeup 3)) ∧
  request_cache L' !! other_key = request_cache L !! other_key ∧
  ready L' = ready L.
Proof.
  intros L L'.
  destruct (query_served_by_own_key [Query 1 example_key; Query 2 other_key]
              3 example_key) as ((t & T & H1 & H2 & H3 & H4) & Hk & _ & Hr).
  split; [|split; [by apply Hk|exact Hr]].
  exists t, T. split; [exact H1|]. split; [exact H2|]. split; [exact H3|].
  vm_compute in H1. injection H1 as <-.
  vm_compute in H2. injection H2 as <-.
  exact (proj1 H4).
Defined.

(** Three calls, two requests in flight: after they have timed out and
    the loop has run, nothing is left in the ledger. *)
Lemma request_cache_drains_witness :
  let tr := [Query 1 example_key; Query 2 other_key; Query 3 example_key] in
  ∃ tr', Forall (λ e, ∀ c k, e ≠ Query c k) tr' ∧
         request_cache (run (tr ++ tr') init) = ∅ ∧
         requests example_key (run (tr ++ tr') init) = 1%nat.
Proof.
  intros tr.
  destruct (request_cache_drains tr (Raises TimeoutError))
    as (tr' & Hq & Hc & _ & Hk & _).
  exists tr'. split; [exact Hq|]. split; [exact Hc|].
  rewrite Hk. reflexivity.
Defined.

End BaseResolverMore.

(** * More on [BaseResolver._request] *)

Module BaseResolverRequestFacts.
Import Query BaseResolverRequest.

Section Request.
Context {W Data Timeout : Type}.
Context (tcp_request udp_request doh_request
  : Transport (W:=W) (Data:=Data) (Timeout:=Timeout)).

(** X17.  [_request] hands the request to the transport registered for the
    address's protocol and returns what it returns: [tcp.request] for
    both "tcp" and "tcps", [udp.request] for "udp", [doh.request] for
    "https".  For any other protocol the lookup raises [KeyError] and
    nothing is sent. *)
Theorem _request_dispatch timeout req addr w :
  let p := Address.protocol addr in
  _request tcp_request udp_request doh_request timeout req addr w =
    if decide (p = "tcp" ∨ p = "tcps")%string then tcp_request req addr timeout w
    else if decide (p = "udp"%string) then udp_request req addr timeout w
    else if decide (p = "https"%string) then doh_request req addr timeout w
    else (Exc (OtherError "KeyError"), w).
Proof.
  intros p. unfold _request, protocols. fold p.
  destruct (decide (p = "tcp"%string)) as [->|Htcp].
  { rewrite lookup_insert_eq. by rewrite decide_True by auto. }
  rewrite lookup_insert_ne by done.
  destruct (decide (p = "tcps"%string)) as [->|Htcps].
  { rewrite lookup_insert_eq. by rewrite decide_True by auto. }
  rewrite lookup_insert_ne by done.
  rewrite decide_False by (by intros [|]).
  destruct (decide (p = "udp"%string)) as [->|Hudp].
  { by rewrite lookup_insert_eq. }
  rewrite lookup_insert_ne by done.
  destruct (decide (p = "https"%string)) as [->|Hdoh].
  { by rewrite lookup_insert_eq. }
  by rewrite lookup_insert_ne by done.
Qed.
End Request.
End BaseResolverRequestFacts.
